(** * YASA spindle detection: a shallow embedding of [yasa/main.py]

    The development follows the layout of the Python module: numeric
    kernels ([_corr], [_covar], [_rms]), the helper functions
    ([moving_transform], [stft_power], [_events_distance_fill],
    [_index_to_events], [get_bool_vector]) and the main function
    [spindles_detect].

    Modelling conventions.
    - Sample indices and array contents of integer dtype are [Z];
      positions inside a Python list or a numpy array are [nat].
    - Scalars living on the time or frequency axis (sampling rate,
      window, step, durations, band edges, event times) are exact
      rationals [Q], so that the index arithmetic of the source computes.
    - float64 amplitudes are [f64]: a real number, one of the two
      infinities, or NaN.  Rounding, overflow and the sign of zero are
      not modelled.
    - The three kernels are compiled by [numba.jit(..., nopython=True)].
      What a division by zero does in compiled code depends on the error
      model numba compiles with: it raises [ZeroDivisionError] under the
      default one and returns NaN or an infinity under numpy's.  The
      model is a field of [numlib], and the kernels are computations.
    - Exceptions and the order in which array computations are performed
      are explicit: a computation is a trace of operations together with
      either an exception or a value.
    - scipy, mne and the numpy routines that are not re-implemented here
      (FIR filtering, resampling, STFT, splines, Hilbert transform,
      percentiles, detrending, peak finding) are fields of the record
      [numlib]; every definition that calls them takes the record as a
      section variable. *)

From Stdlib Require Import ZArith QArith Qround Qabs Reals Psatz.
From stdpp Require Import gmap strings list sorting.

Open Scope Z_scope.

(** ** Rational scalars *)

Definition Qltb (x y : Q) : bool := negb (Qle_bool y x).
(** [float.astype(int)]: truncation toward zero. *)
Definition Qtrunc (q : Q) : Z := Z.quot (Qnum q) (Zpos (Qden q)).

(** ** numpy on integer arrays *)

(** [np.diff]. *)
Definition np_diff (l : list Z) : list Z := zip_with Z.sub (tail l) l.

(** [np.where(mask)[0]]: the positions holding [True]. *)
Fixpoint where_from (i : nat) (m : list bool) : list nat :=
  match m with
  | [] => []
  | b :: m' => if b then i :: where_from (S i) m' else where_from (S i) m'
  end.

Definition np_where (m : list bool) : list nat := where_from 0 m.

(** [arr[mask]]: boolean-mask selection. *)
Fixpoint mask_select {A} (l : list A) (m : list bool) : list A :=
  match l, m with
  | a :: l', b :: m' => if b then a :: mask_select l' m' else mask_select l' m'
  | _, _ => []
  end.

(** [arr[positions]] for positions produced by [np.where] (always in
    range; [d] is never returned on such positions). *)
Definition take_at {A} (d : A) (l : list A) (ps : list nat) : list A :=
  map (fun p => nth p l d) ps.

(** [np.arange(a, b)] on integers. *)
Definition arange_Z (a b : Z) : list Z :=
  map (fun i => a + Z.of_nat i) (seq 0 (Z.to_nat (b - a))).

(** [np.hstack] of a list of 1-D arrays. *)
Definition np_hstack {A} (ls : list (list A)) : list A := concat ls.

(** [np.sort] on integers. *)
Definition np_sort (l : list Z) : list Z := merge_sort Z.le l.

(** [arr[a:b]] for non-negative bounds. *)
Definition slice {A} (l : list A) (a b : nat) : list A := take (b - a) (drop a l).

(** [np.split(arr, cuts)]: the pieces [arr[:c1]], [arr[c1:c2]], ...,
    [arr[ck:]]. *)
Fixpoint split_from {A} (l : list A) (prev : nat) (cuts : list nat) : list (list A) :=
  match cuts with
  | [] => [drop prev l]
  | c :: cs => slice l prev c :: split_from l c cs
  end.

Definition np_split {A} (l : list A) (cuts : list nat) : list (list A) :=
  split_from l 0 cuts.

(** ** Run merging *)

(** [_events_distance_fill(index, min_distance_ms, sf)]. *)
Definition _events_distance_fill (index : list Z) (min_distance_ms sf : Q) : list Z :=
  let min_distance := (min_distance_ms / 1000 * sf)%Q in
  let idx_diff := np_diff index in
  let condition := map (fun d => 1 <? d) idx_diff in
  let idx_distance := np_where condition in
  let distance := mask_select idx_diff condition in
  let bad := take_at 0%nat idx_distance
               (np_where (map (fun d => Qltb (inject_Z d) min_distance) distance)) in
  if (0 <? length bad)%nat then
    let fill := np_hstack
                  (map (fun j => arange_Z (nth j index 0 + 1) (nth (j + 1) index 0)) bad) in
    np_sort (index ++ fill)
  else index.

(** ** float64 amplitudes *)

Inductive f64 : Type :=
| Fin (r : R)
| PInf
| NInf
| NaN.


Definition inf_of_pos (pos : bool) : f64 := if pos then PInf else NInf.

Definition Rposb (r : R) : bool := if Rlt_dec 0 r then true else false.
Definition Rzerob (r : R) : bool := if Req_dec_T r 0 then true else false.

Definition f64_neg (x : f64) : f64 :=
  match x with
  | Fin r => Fin (- r)
  | PInf => NInf
  | NInf => PInf
  | NaN => NaN
  end.

Definition f64_add (x y : f64) : f64 :=
  match x, y with
  | Fin a, Fin b => Fin (a + b)
  | NaN, _ | _, NaN => NaN
  | PInf, NInf | NInf, PInf => NaN
  | PInf, _ | _, PInf => PInf
  | NInf, _ | _, NInf => NInf
  end.

Definition f64_sub (x y : f64) : f64 := f64_add x (f64_neg y).

(** Sign of an operand, [None] for zero and NaN. *)
Definition f64_pos (x : f64) : option bool :=
  match x with
  | Fin r => if Rzerob r then None else Some (Rposb r)
  | PInf => Some true
  | NInf => Some false
  | NaN => None
  end.

Definition f64_mul (x y : f64) : f64 :=
  match x, y with
  | Fin a, Fin b => Fin (a * b)
  | NaN, _ | _, NaN => NaN
  | _, _ =>
      match f64_pos x, f64_pos y with
      | Some s, Some s' => inf_of_pos (Bool.eqb s s')
      | _, _ => NaN
      end
  end.

Definition f64_div (x y : f64) : f64 :=
  match x, y with
  | Fin a, Fin b =>
      if Rzerob b then
        (if Rzerob a then NaN else inf_of_pos (Rposb a))
      else Fin (a / b)
  | NaN, _ | _, NaN => NaN
  | Fin _, _ => Fin 0
  | PInf, Fin b => if Rzerob b then PInf else inf_of_pos (Rposb b)
  | NInf, Fin b => if Rzerob b then NInf else inf_of_pos (negb (Rposb b))
  | _, _ => NaN
  end.

Definition f64_square (x : f64) : f64 := f64_mul x x.

Definition f64_sqrt (x : f64) : f64 :=
  match x with
  | Fin r => if Rlt_dec r 0 then NaN else Fin (sqrt r)
  | PInf => PInf
  | _ => NaN
  end.

Definition Rlog10 (r : R) : R := (ln r / ln 10)%R.

(** [np.log10]. *)
Definition f64_log10 (x : f64) : f64 :=
  match x with
  | Fin r => if Rlt_dec 0 r then Fin (Rlog10 r)
             else if Rzerob r then NInf else NaN
  | PInf => PInf
  | _ => NaN
  end.

(** Comparisons; every comparison with NaN is [False]. *)
Definition f64_leb (x y : f64) : bool :=
  match x, y with
  | Fin a, Fin b => if Rle_dec a b then true else false
  | NaN, _ | _, NaN => false
  | NInf, _ | _, PInf => true
  | _, _ => false
  end.

Definition f64_geb (x y : f64) : bool := f64_leb y x.

Definition f64_eqb (x y : f64) : bool :=
  match x, y with
  | Fin a, Fin b => Rzerob (a - b)
  | PInf, PInf | NInf, NInf => true
  | _, _ => false
  end.

Definition f64_of_Z (z : Z) : f64 := Fin (IZR z).
Definition f64_of_nat (n : nat) : f64 := Fin (INR n).
(** [arr.sum()] and [arr.mean()] (sum divided by the size, so NaN on an
    empty array). *)
Definition f64_sum (l : list f64) : f64 := foldl f64_add (Fin 0) l.
Definition f64_mean (l : list f64) : f64 := f64_div (f64_sum l) (f64_of_nat (length l)).

(** [np.diff] on float arrays. *)
Definition f64_diff (l : list f64) : list f64 := zip_with f64_sub (tail l) l.

(** ** Computations: exceptions and the trace of array operations *)

Inductive exn : Type :=
| AssertionError
| KeyError (k : string)
| ZeroDivisionError
| IndexError
| ValueError
| TypeError.

(** One entry per array computation, in the order the interpreter
    performs them.  [OpMoving] marks the window loop of
    [moving_transform]; the other entries are calls into the numeric
    library or to [print]. *)
Inductive op : Type :=
| OpResample (up : Q)
| OpFilter (l_freq h_freq : Q)
| OpStft (nperseg noverlap : Z)
| OpInterp2d
| OpMoving (method : string)
| OpInterp1d
| OpHilbert (N : nat)
| OpPercentile
| OpMedian
| OpDetrend
| OpPtp
| OpFindPeaks
| OpArgmax
| OpPrint (msg : string).

Record comp (A : Type) : Type := Comp { trace : list op; outcome : exn + A }.
Arguments Comp {A} _ _.
Arguments trace {A} _.
Arguments outcome {A} _.

#[global] Instance comp_ret : MRet comp := fun A a => Comp [] (inr a).

#[global] Instance comp_bind : MBind comp := fun A B f m =>
  match outcome m with
  | inl e => Comp (trace m) (inl e)
  | inr a => Comp (trace m ++ trace (f a)) (outcome (f a))
  end.

Definition raise {A} (e : exn) : comp A := Comp [] (inl e).
Definition call {A} (o : op) (r : exn + A) : comp A := Comp [o] r.
Definition tick (o : op) : comp unit := Comp [o] (inr tt).
Definition assert (b : bool) : comp unit :=
  if b then mret tt else raise AssertionError.

(** [for a in l: ...] collecting one result per iteration. *)
Fixpoint for_each {A B} (f : A -> comp B) (l : list A) : comp (list B) :=
  match l with
  | [] => mret []
  | a :: l' => b ← f a; bs ← for_each f l'; mret (b :: bs)
  end.

(** Python true division of two numbers. *)
Definition py_div (a b : Q) : comp Q :=
  if Qeq_bool b 0 then raise ZeroDivisionError else mret (a / b)%Q.

(** ** The numeric library *)

Definition complex : Type := f64 * f64.
Definition matrix : Type := list (list f64).

(** The [error_model] option of [numba.jit]: with ['python'], the default,
    a division by zero in compiled code raises [ZeroDivisionError]; with
    ['numpy'] it returns NaN or an infinity. *)
Inductive error_model : Type :=
| PythonErrors
| NumpyErrors.

Record numlib : Type := {
  (** the error model [numba] compiles the kernels with *)
  jit_error_model : error_model;
  (** [mne.filter.resample(data, up=fac, down=1.0, ...)] *)
  resample : list f64 -> Q -> exn + list f64;
  (** [mne.filter.filter_data(data, sf, l_freq, h_freq, method='fir')] *)
  filter_data : list f64 -> Q -> Q -> Q -> exn + list f64;
  (** [scipy.signal.stft(data, sf, nperseg, noverlap, detrend='constant',
      padded=True)]: frequencies, times, one row of coefficients per
      frequency *)
  stft : list f64 -> Q -> Z -> Z -> exn + (list Q * list Q * list (list complex));
  (** [interp1d(t, out, kind='cubic', bounds_error=False, fill_value=0)(tnew)] *)
  interp1d : list Q -> list f64 -> list Q -> exn + list f64;
  (** [interp2d(t, f, Sxx, kind='cubic')(tnew, f)] *)
  interp2d : list Q -> list Q -> matrix -> list Q -> exn + matrix;
  (** [scipy.fftpack.next_fast_len] *)
  next_fast_len : nat -> nat;
  (** [scipy.signal.hilbert(x, N)] *)
  hilbert : list f64 -> nat -> exn + list complex;
  (** [np.angle] *)
  angle : complex -> f64;
  (** [np.percentile(a, q)] *)
  percentile : list f64 -> f64 -> exn + f64;
  (** [np.median] *)
  median : list f64 -> exn + f64;
  (** [scipy.signal.detrend] *)
  detrend : list f64 -> exn + list f64;
  (** [np.ptp] *)
  ptp : list f64 -> exn + f64;
  (** [scipy.signal.find_peaks(x, distance, prominence=(None, None))]:
      the peaks and their prominences *)
  find_peaks : list f64 -> Q -> exn + (list Z * list f64);
  (** [arr.argmax()] *)
  argmax : list f64 -> exn + nat
}.

(** ** Numeric kernels *)

Section Kernels.

Context (lib : numlib).

(** [a / b] in a kernel compiled by [@jit(..., nopython=True)]. *)
Definition jit_div (a b : f64) : comp f64 :=
  match jit_error_model lib with
  | PythonErrors => if f64_eqb b (Fin 0) then raise ZeroDivisionError
                    else mret (f64_div a b)
  | NumpyErrors => mret (f64_div a b)
  end.

(** [x.mean()] in a compiled kernel: the sum divided by the size. *)
Definition jit_mean (x : list f64) : comp f64 :=
  jit_div (f64_sum x) (f64_of_nat (length x)).

(** [_corr(x, y)]: Pearson correlation. *)
Definition _corr (x y : list f64) : comp f64 :=
  mx ← jit_mean x;
  my ← jit_mean y;
  let xm := map (fun v => f64_sub v mx) x in
  let ym := map (fun v => f64_sub v my) y in
  let r_num := f64_sum (zip_with f64_mul xm ym) in
  let r_den := f64_mul (f64_sqrt (f64_sum (map f64_square xm)))
                       (f64_sqrt (f64_sum (map f64_square ym))) in
  jit_div r_num r_den.

(** [_covar(x, y)]. *)
Definition _covar (x y : list f64) : comp f64 :=
  let n := length x in
  mx ← jit_mean x;
  my ← jit_mean y;
  let xm := map (fun v => f64_sub v mx) x in
  let ym := map (fun v => f64_sub v my) y in
  let cov := f64_sum (zip_with f64_mul xm ym) in
  jit_div cov (f64_of_Z (Z.of_nat n - 1)).

(** [_rms(x)]. *)
Definition _rms (x : list f64) : comp f64 :=
  m ← jit_mean (map f64_square x);
  mret (f64_sqrt m).

End Kernels.

(** ** Float ranges and slices *)

(** [np.arange(start, stop, step)] on floats: [ceil((stop - start) / step)]
    values [start + i * step]. *)
Definition arange_len (start stop step : Q) : nat :=
  Z.to_nat (Qceiling ((stop - start) / step)).

Definition arange (start stop step : Q) : list Q :=
  map (fun i => (start + inject_Z (Z.of_nat i) * step)%Q)
      (seq 0 (arange_len start stop step)).

(** [np.arange(n) / sf]. *)
Definition sample_times (n : nat) (sf : Q) : list Q :=
  map (fun i => (inject_Z (Z.of_nat i) / sf)%Q) (seq 0 n).

(** Python slice bound: negative bounds count from the end, and bounds
    are clipped to the sequence. *)
Definition py_bound (n : nat) (i : Z) : nat :=
  if i <? 0 then Z.to_nat (Z.max 0 (i + Z.of_nat n)) else Z.to_nat i.

(** [x[b:e]]. *)
Definition py_slice {A} (x : list A) (b e : Z) : list A :=
  slice x (py_bound (length x) b) (py_bound (length x) e).

(** [arr[idx]] with an integer index array: negative indices wrap once,
    anything else out of range raises. *)
Definition py_index (n : nat) (i : Z) : exn + nat :=
  if (0 <=? i) && (i <? Z.of_nat n) then inr (Z.to_nat i)
  else if (- Z.of_nat n <=? i) && (i <? 0) then inr (Z.to_nat (i + Z.of_nat n))
  else inl IndexError.

Definition getitem {A} (l : list A) (i : Z) : comp A :=
  match py_index (length l) i with
  | inl e => raise e
  | inr p => match l !! p with Some a => mret a | None => raise IndexError end
  end.

Definition fancy_get {A} (l : list A) (idx : list Z) : comp (list A) :=
  for_each (getitem l) idx.

(** [arr[idx] = v] with an integer index array. *)
Fixpoint fancy_set {A} (l : list A) (idx : list Z) (v : A) : comp (list A) :=
  match idx with
  | [] => mret l
  | i :: idx' =>
      match py_index (length l) i with
      | inl e => raise e
      | inr p => fancy_set (<[p := v]> l) idx' v
      end
  end.

Definition string_in (s : string) (l : list string) : bool :=
  bool_decide (s ∈ l).

(** ** Moving-window transform *)

(** Source lines 106-111: first sample, last sample and centered time of
    every window. *)
Definition window_beg (sf halfdur : Q) (idx : list Q) : list Z :=
  map (fun c => let b := Qtrunc ((c - halfdur) * sf) in
                if b <? 0 then 0 else b) idx.

Definition window_end (sf halfdur : Q) (last : Z) (idx : list Q) : list Z :=
  map (fun c => let e := Qtrunc ((c + halfdur) * sf) in
                if last <? e then last else e) idx.

Definition window_times (sf : Q) (beg end_ : list Z) : list Q :=
  zip_with (fun e b => ((inject_Z e + inject_Z b) / 2 / sf)%Q) end_ beg.

Section Helpers.

Context (lib : numlib).

(** Source lines 113-131: the kernel chosen by [method], applied to the
    window [x[b:e]] (and [y[b:e]]), and the loop over the windows. *)
Definition window_value (x : list f64) (y : option (list f64)) (method : string)
    (be : Z * Z) : comp f64 :=
  if string_in method ["covar"; "corr"] then
    let func := if String.eqb method "covar" then _covar lib else _corr lib in
    match y with
    | Some y' => func (py_slice x be.1 be.2) (py_slice y' be.1 be.2)
    | None => raise TypeError
    end
  else _rms lib (py_slice x be.1 be.2).

Definition window_loop (x : list f64) (y : option (list f64)) (method : string)
    (beg end_ : list Z) : comp (list f64) :=
  for_each (window_value x y method) (zip beg end_).

(** [moving_transform(x, y, sf, window, step, method, interp)]. *)
Definition moving_transform (x : list f64) (y : option (list f64))
    (sf window step : Q) (method : string) (interp : bool)
  : comp (list Q * list f64) :=
  assert (string_in method ["covar"; "corr"; "rms"]);;
  match y with
  | Some y' => assert (length x =? length y')%nat
  | None => mret tt
  end;;
  step ← (if Qeq_bool step 0 then py_div 1 sf else mret step);
  let halfdur := (window / 2)%Q in
  let n := length x in
  total_dur ← py_div (inject_Z (Z.of_nat n)) sf;
  let last := Z.of_nat n - 1 in
  let idx := arange 0 total_dur step in
  let beg := window_beg sf halfdur idx in
  let end_ := window_end sf halfdur last idx in
  let t := window_times sf beg end_ in
  tick (OpMoving method);;
  out ← window_loop x y method beg end_;
  if interp then
    inv_sf ← py_div 1 sf;
    if negb (Qeq_bool step inv_sf) then
      let t' := sample_times n sf in
      out' ← call OpInterp1d (interp1d lib t out t');
      mret (t', out')
    else mret (t, out)
  else mret (t, out).

(** ** Short-time Fourier power *)

(** [Sxx.sum(0)] for a matrix with [w] columns. *)
Definition col_sums (w : nat) (m : matrix) : list f64 :=
  foldl (zip_with f64_add) (replicate w (Fin 0)) m.

Definition complex_abs (z : complex) : f64 :=
  f64_sqrt (f64_add (f64_square z.1) (f64_square z.2)).

(** [stft_power(data, sf, window, step, band, interp, norm)]. *)
Definition stft_power (data : list f64) (sf window step : Q) (band : Q * Q)
    (interp norm : bool) : comp (list Q * list Q * matrix) :=
  assert (Qle_bool step window);;
  assert (Qltb band.1 band.2);;
  step ← (if Qeq_bool step 0 then py_div 1 sf else mret step);
  let nperseg := Qtrunc (window * sf) in
  let noverlap := Qtrunc (inject_Z nperseg - step * sf) in
  '(f, t, Zxx) ← call (OpStft nperseg noverlap) (stft lib data sf nperseg noverlap);
  let idx_band := map (fun v => Qle_bool band.1 v && Qle_bool v band.2) f in
  let f := mask_select f idx_band in
  let Zxx := mask_select Zxx idx_band in
  let Sxx := map (map (fun z => f64_square (complex_abs z))) Zxx in
  '(t, Sxx) ← (if interp then
                 let t' := sample_times (length data) sf in
                 Sxx' ← call OpInterp2d (interp2d lib t f Sxx t');
                 mret (t', Sxx')
               else mret (t, Sxx));
  let Sxx := if norm then
               let sum_pow := col_sums (length t) Sxx in
               map (fun row => zip_with f64_div row sum_pow) Sxx
             else Sxx in
  mret (f, t, Sxx).

End Helpers.

(** ** Events and masks *)

(** [_index_to_events(x)] for a 2-D array given as its rows. *)
Definition _index_to_events (x : list (Q * Q)) : list Z :=
  map Qtrunc (concat (map (fun row => arange row.1 (row.2 + 1) 1) x)).

(** Columns of a [pandas.DataFrame]: times, amplitudes or labels. *)
Inductive column : Type :=
| ColQ (v : list Q)
| ColF (v : list f64)
| ColS (v : list string).

Definition DataFrame : Type := list (string * column).

Fixpoint df_lookup (df : DataFrame) (k : string) : option column :=
  match df with
  | [] => None
  | (k', c) :: df' => if String.eqb k' k then Some c else df_lookup df' k
  end.

(** [df[mask]]: row selection. *)
Definition df_filter (df : DataFrame) (m : list bool) : DataFrame :=
  map (fun kc => (kc.1, match kc.2 with
                        | ColQ v => ColQ (mask_select v m)
                        | ColF v => ColF (mask_select v m)
                        | ColS v => ColS (mask_select v m)
                        end)) df.

(** [get_bool_vector(data, sf, sp)]. *)
Definition get_bool_vector (data : list f64) (sf : Q) (sp : DataFrame)
  : comp (list Z) :=
  assert (bool_decide (is_Some (df_lookup sp "Start")));;
  assert (bool_decide (is_Some (df_lookup sp "End")));;
  match df_lookup sp "Start", df_lookup sp "End" with
  | Some (ColQ s), Some (ColQ e) =>
      let values := zip_with (fun a b => (a * sf, b * sf)%Q) s e in
      let idx_sp := _index_to_events values in
      let bool_spindles := replicate (length data) 0 in
      fancy_set bool_spindles idx_sp 1
  | _, _ => raise TypeError
  end.

(** ** Spindle detection *)

(** [a + b] on integer arrays, with numpy broadcasting of a length-one
    operand. *)
Definition np_add (a b : list Z) : comp (list Z) :=
  if (length a =? length b)%nat then mret (zip_with Z.add a b)
  else match a, b with
       | [x], _ => mret (map (Z.add x) b)
       | _, [y] => mret (map (fun v => v + y) a)
       | _, _ => raise ValueError
       end.

(** [mask.astype(int)]. *)
Definition mask_to_int (m : list bool) : list Z :=
  map (fun b : bool => if b then 1 else 0) m.

(** [thresh[k]]. *)
Definition dict_get (thresh : gmap string R) (k : string) : comp R :=
  match thresh !! k with
  | Some v => mret v
  | None => raise (KeyError k)
  end.

(** The per-sample quantities computed before thresholding. *)
Record measures : Type := {
  ms_sf : Q;
  ms_data : list f64;
  ms_data_sigma : list f64;
  ms_rel_pow : list f64;
  ms_mcorr : list f64;
  ms_mrms : list f64;
  ms_abs_pow_log : list f64;
  ms_inst_freq : list f64
}.

(** Per-event features filled in by the loop over the runs. *)
Record features : Type := {
  ft_amp : f64;
  ft_freq : f64;
  ft_rms : f64;
  ft_osc : f64;
  ft_sym : f64;
  ft_abs : f64;
  ft_rel : f64;
  ft_conf : string
}.

(** The values the arrays are initialised with: zeros and the empty
    string. *)
Definition features_init : features :=
  {| ft_amp := Fin 0; ft_freq := Fin 0; ft_rms := Fin 0; ft_osc := Fin 0;
     ft_sym := Fin 0; ft_abs := Fin 0; ft_rel := Fin 0; ft_conf := EmptyString |}.

Definition no_spindle_msg : string :=
  "No spindle were found in data. Returning None.".

(** The band handed to the second FIR filter. *)
Definition sigma_band (freq_sp : Q * Q) : Q * Q :=
  let trans : Q := if Qltb 3 (freq_sp.2 - freq_sp.1) then 1%Q else 0%Q in
  ((freq_sp.1 + trans)%Q, (freq_sp.2 - trans)%Q).

(** [mms[mms <= 0] = 0.000000001]. *)
Definition guard_nonpositive (mms : list f64) : list f64 :=
  map (fun v => if f64_leb v (Fin 0) then Fin 0.000000001 else v) mms.

(** The merge step of the detector. *)
Definition merge_events (min_distance : option Q) (sf : Q) (where_sp : list Z)
  : list Z :=
  match min_distance with
  | Some md => if Qltb 0 md then _events_distance_fill where_sp md sf else where_sp
  | None => where_sp
  end.

(** [np.split(where_sp, np.where(np.diff(where_sp) != 1)[0] + 1)]. *)
Definition split_runs (where_sp : list Z) : list (list Z) :=
  np_split where_sp
    (map (fun p => (p + 1)%nat)
         (np_where (map (fun d => negb (d =? 1)) (np_diff where_sp)))).

(** [np.logical_and(sp_dur > duration[0], sp_dur < duration[1])]. *)
Definition good_duration (duration : Q * Q) (sp_dur : list Q) : list bool :=
  map (fun d => Qltb duration.1 d && Qltb d duration.2) sp_dur.

Section Detector.

Context (lib : numlib).

(** Source lines 367-373: downsampling to 100 Hz. *)
Definition downsample (data : list f64) (sf : Q) : comp (list f64 * Q) :=
  if Qle_bool 200 sf then
    let fac := (100 / sf)%Q in
    data' ← call (OpResample fac) (resample lib data fac);
    mret (data', 100%Q)
  else mret (data, sf).

(** Source lines 362-406: safety checks, resampling, the two band-pass
    filters, relative power, moving correlation and RMS, absolute power
    and instantaneous frequency. *)
Definition compute_measures (data : list f64) (sf : Q) (freq_sp freq_broad : Q * Q)
  : comp measures :=
  assert (Qltb freq_sp.1 freq_sp.2);;
  assert (Qltb freq_broad.1 freq_broad.2);;
  '(data, sf) ← downsample data sf;
  data ← call (OpFilter freq_broad.1 freq_broad.2)
              (filter_data lib data sf freq_broad.1 freq_broad.2);
  let band := sigma_band freq_sp in
  data_sigma ← call (OpFilter band.1 band.2)
                    (filter_data lib data sf band.1 band.2);
  '(f, t, Sxx) ← stft_power lib data sf 2 0.05 freq_broad true false;
  let idx_sigma := map (fun v => Qle_bool freq_sp.1 v && Qle_bool v freq_sp.2) f in
  let rel_pow := zip_with f64_div (col_sums (length t) (mask_select Sxx idx_sigma))
                                  (col_sums (length t) Sxx) in
  '(_, mcorr) ← moving_transform lib data_sigma (Some data) sf 0.3 0.1 "corr" true;
  '(_, mrms) ← moving_transform lib data_sigma (Some data) sf 0.3 0.1 "rms" true;
  let mms := map f64_square mrms in
  let mms := guard_nonpositive mms in
  let abs_pow_log := map f64_log10 mms in
  let n := length data_sigma in
  let nfast := next_fast_len lib n in
  analytic ← call (OpHilbert nfast) (hilbert lib data_sigma nfast);
  let phase_sigma := map (angle lib) (take n analytic) in
  let inst_freq := map (f64_mul (Fin (Q2R sf / (2 * PI))))
                       (f64_diff phase_sigma) in
  mret {| ms_sf := sf; ms_data := data; ms_data_sigma := data_sigma;
          ms_rel_pow := rel_pow; ms_mcorr := mcorr; ms_mrms := mrms;
          ms_abs_pow_log := abs_pow_log; ms_inst_freq := inst_freq |}.

(** Source lines 409-413: the four criteria and their per-sample sum. *)
Definition vote (ms : measures) (thresh : gmap string R) : comp (list Z) :=
  t_abs ← dict_get thresh "abs_pow";
  let idx_abs_pow := mask_to_int (map (fun v => f64_geb v (Fin t_abs)) (ms_abs_pow_log ms)) in
  t_rel ← dict_get thresh "rel_pow";
  let idx_rel_pow := mask_to_int (map (fun v => f64_geb v (Fin t_rel)) (ms_rel_pow ms)) in
  t_corr ← dict_get thresh "corr";
  let idx_mcorr := mask_to_int (map (fun v => f64_geb v (Fin t_corr)) (ms_mcorr ms)) in
  t_rms ← dict_get thresh "rms";
  p ← call OpPercentile (percentile lib (ms_mrms ms) (Fin t_rms));
  let idx_mrms := mask_to_int (map (fun v => f64_geb v p) (ms_mrms ms)) in
  s ← np_add idx_abs_pow idx_rel_pow;
  s ← np_add s idx_mcorr;
  np_add s idx_mrms.

(** Source lines 463-480: the features of one run. *)
Definition run_features (ms : measures) (idx_sum : list Z) (distance : Q)
    (run : list Z) : comp features :=
  seg ← fancy_get (ms_data ms) run;
  sp_det ← call OpDetrend (detrend lib seg);
  amp ← call OpPtp (ptp lib sp_det);
  rms ← _rms lib sp_det;
  a ← fancy_get (ms_abs_pow_log ms) run;
  let abs := f64_mean a in
  r ← fancy_get (ms_rel_pow ms) run;
  let rel := f64_mean r in
  fr ← fancy_get (ms_inst_freq ms) run;
  freq ← call OpMedian (median lib fr);
  v ← fancy_get idx_sum run;
  thresh ← call OpPercentile (percentile lib (map f64_of_Z v) (Fin 75));
  let conf : string := if f64_eqb thresh (Fin 4) then "high" else "medium" in
  '(peaks, prominences) ← call OpFindPeaks (find_peaks lib sp_det distance);
  let osc := f64_of_nat (length peaks) in
  am ← call OpArgmax (argmax lib prominences);
  p ← getitem peaks (Z.of_nat am);
  let sym := f64_div (f64_of_Z p) (f64_of_nat (length sp_det)) in
  mret {| ft_amp := amp; ft_freq := freq; ft_rms := rms; ft_osc := osc;
          ft_sym := sym; ft_abs := abs; ft_rel := rel; ft_conf := conf |}.

(** Source lines 422-495: candidate indices, merging, segmentation, the
    duration filter and the table of events. *)
Definition detect_events (ms : measures) (idx_sum : list Z) (duration : Q * Q)
    (min_distance : option Q) : comp (option DataFrame) :=
  let sf := ms_sf ms in
  let where_sp := map Z.of_nat (np_where (map (fun v => 3 <=? v) idx_sum)) in
  if (length where_sp =? 0)%nat then
    tick (OpPrint no_spindle_msg);; mret None
  else
    let where_sp := merge_events min_distance sf where_sp in
    let sp := split_runs where_sp in
    idx_start_end ← for_each (fun k => a ← getitem k 0; b ← getitem k (-1);
                                        mret ((inject_Z a / sf)%Q, (inject_Z b / sf)%Q)) sp;
    let sp_start := map fst idx_start_end in
    let sp_end := map snd idx_start_end in
    let sp_dur := zip_with Qminus sp_end sp_start in
    let good_dur := good_duration duration sp_dur in
    if forallb negb good_dur then
      tick (OpPrint no_spindle_msg);; mret None
    else
      let distance := (60 * sf / 1000)%Q in
      fts ← for_each (fun kg : list Z * bool =>
                        if kg.2 then run_features ms idx_sum distance kg.1
                        else mret features_init)
                     (zip sp good_dur);
      let sp_params : DataFrame :=
        [("Start", ColQ sp_start);
         ("End", ColQ sp_end);
         ("Duration", ColQ sp_dur);
         ("Amplitude", ColF (map ft_amp fts));
         ("RMS", ColF (map ft_rms fts));
         ("AbsPower", ColF (map ft_abs fts));
         ("RelPower", ColF (map ft_rel fts));
         ("Frequency", ColF (map ft_freq fts));
         ("Oscillations", ColF (map ft_osc fts));
         ("Symmetry", ColF (map ft_sym fts));
         ("Confidence", ColS (map ft_conf fts))] in
      mret (Some (df_filter sp_params good_dur)).

(** [spindles_detect(data, sf, freq_sp, duration, freq_broad,
    min_distance, thresh)]. *)
Definition spindles_detect (data : list f64) (sf : Q) (freq_sp duration freq_broad : Q * Q)
    (min_distance : option Q) (thresh : gmap string R) : comp (option DataFrame) :=
  ms ← compute_measures data sf freq_sp freq_broad;
  idx_sum ← vote ms thresh;
  detect_events ms idx_sum duration min_distance.

End Detector.

(** The default arguments of [spindles_detect]. *)
Definition default_freq_sp : Q * Q := (11, 16)%Q.
Definition default_duration : Q * Q := (0.3, 2.5)%Q.
Definition default_freq_broad : Q * Q := (0.5, 30)%Q.
Definition default_min_distance : option Q := Some 500%Q.
Definition default_thresh : gmap string R :=
  <["abs_pow" := 1.25%R]> (<["rel_pow" := 0.20%R]> (<["rms" := 95%R]>
    (<["corr" := 0.69%R]> ∅))).

(** ** Vocabulary of the statements *)

(** [a] and [b] are neighbours in the array [index]. *)
Definition consecutive (index : list Z) (a b : Z) : Prop :=
  exists j : nat, index !! j = Some a /\ index !! S j = Some b.

(** The minimum distance converted to samples. *)
Definition min_distance_samples (min_distance_ms sf : Q) : Q :=
  (min_distance_ms / 1000 * sf)%Q.

(** [k] lies strictly inside a gap of the array whose two ends are closer
    than [md] samples. *)
Definition in_short_gap (index : list Z) (md : Q) (k : Z) : Prop :=
  exists a b : Z, consecutive index a b /\ a < k < b /\ (inject_Z (b - a) < md)%Q.

(** The indices [_events_distance_fill] appends to its input. *)
Definition gap_fill (index : list Z) (md : Q) : list Z :=
  np_hstack
    (map (fun j => arange_Z (nth j index 0 + 1) (nth (j + 1) index 0))
         (np_where (map (fun d => (1 <? d) && Qltb (inject_Z d) md) (np_diff index)))).




(** A library none of whose routines succeeds: enough to run the parts of
    the module that never call it. *)
Definition failing_lib : numlib :=
  {| jit_error_model := PythonErrors;
     resample := fun _ _ => inl ValueError;
     filter_data := fun _ _ _ _ => inl ValueError;
     stft := fun _ _ _ _ => inl ValueError;
     interp1d := fun _ _ _ => inl ValueError;
     interp2d := fun _ _ _ _ => inl ValueError;
     next_fast_len := fun n => n;
     hilbert := fun _ _ => inl ValueError;
     angle := fun _ => NaN;
     percentile := fun _ _ => inl ValueError;
     median := fun _ => inl ValueError;
     detrend := fun _ => inl ValueError;
     ptp := fun _ => inl ValueError;
     find_peaks := fun _ _ => inl ValueError;
     argmax := fun _ => inl ValueError |}.

(** A test double for the numeric library: the filters, the resampler and
    the detrender return their input, the interpolators and the order
    statistics return NaN, the STFT returns a single 13 Hz row, and the
    peak finder reports one peak at the start of the segment. *)
Definition stub_lib : numlib :=
  {| jit_error_model := PythonErrors;
     resample := fun data _ => inr data;
     filter_data := fun data _ _ _ => inr data;
     stft := fun data _ _ _ => inr ([13%Q], [0%Q], [[(Fin 1, Fin 0)]]);
     interp1d := fun _ _ tnew => inr (replicate (length tnew) NaN);
     interp2d := fun _ _ Sxx tnew => inr (map (fun _ => replicate (length tnew) NaN) Sxx);
     next_fast_len := fun n => n;
     hilbert := fun x _ => inr (map (fun v => (v, Fin 0)) x);
     angle := fun _ => NaN;
     percentile := fun _ _ => inr NaN;
     median := fun _ => inr NaN;
     detrend := fun x => inr x;
     ptp := fun _ => inr NaN;
     find_peaks := fun _ _ => inr ([0], [Fin 1]);
     argmax := fun _ => inr 0%nat |}.

(** Absolute power of one sample as a function of its moving RMS
    (source lines 397-399). *)
Definition abs_pow_of_rms (v : f64) : f64 :=
  let mms := f64_square v in
  f64_log10 (if f64_leb mms (Fin 0) then Fin 0.000000001 else mms).

(** Sums over finite samples. *)
Definition Rsum (l : list R) : R := foldl Rplus 0%R l.

(** Mean, centered samples, and the numerator and denominator of the
    Pearson correlation on finite samples. *)
Definition Rmean (l : list R) : R := (Rsum l / INR (length l))%R.

Definition centered (l : list R) : list R := map (fun v => (v + - Rmean l)%R) l.

Definition corr_num (xs ys : list R) : R :=
  Rsum (zip_with Rmult (centered xs) (centered ys)).

Definition corr_den (xs ys : list R) : R :=
  (sqrt (Rsum (map (fun v => v * v) (centered xs)))
   * sqrt (Rsum (map (fun v => v * v) (centered ys))))%R.

(** All samples of the window are equal. *)
Definition constant_window (l : list R) : Prop :=
  exists c : R, Forall (fun v => v = c) l.

(** The candidate indices, the merged runs and their times, as
    [detect_events] computes them. *)
Definition candidates (idx_sum : list Z) : list Z :=
  map Z.of_nat (np_where (map (fun v => 3 <=? v) idx_sum)).

Definition merged_runs (min_distance : option Q) (sf : Q) (idx_sum : list Z)
  : list (list Z) :=
  split_runs (merge_events min_distance sf (candidates idx_sum)).

Definition run_start (sf : Q) (k : list Z) : Q := (inject_Z (default 0%Z (head k)) / sf)%Q.
Definition run_end (sf : Q) (k : list Z) : Q := (inject_Z (default 0%Z (last k)) / sf)%Q.
Definition run_span (sf : Q) (k : list Z) : Q := (run_end sf k - run_start sf k)%Q.

Definition good_run (duration : Q * Q) (sf : Q) (k : list Z) : bool :=
  Qltb duration.1 (run_span sf k) && Qltb (run_span sf k) duration.2.

(** The band-pass calls recorded in a trace, in order. *)
Definition bandpass_calls (tr : list op) : list (Q * Q) :=
  omap (fun o => match o with OpFilter l h => Some (l, h) | _ => None end) tr.

(** The fields every threshold configuration is expected to have. *)
Definition required_keys : list string := ["abs_pow"; "rel_pow"; "corr"; "rms"].

(** The table [detect_events] builds from the runs and their features,
    before the rows of bad duration are dropped. *)
Definition events_table (sf : Q) (runs : list (list Z)) (fts : list features)
  : DataFrame :=
  [("Start", ColQ (map (run_start sf) runs));
   ("End", ColQ (map (run_end sf) runs));
   ("Duration", ColQ (map (run_span sf) runs));
   ("Amplitude", ColF (map ft_amp fts));
   ("RMS", ColF (map ft_rms fts));
   ("AbsPower", ColF (map ft_abs fts));
   ("RelPower", ColF (map ft_rel fts));
   ("Frequency", ColF (map ft_freq fts));
   ("Oscillations", ColF (map ft_osc fts));
   ("Symmetry", ColF (map ft_sym fts));
   ("Confidence", ColS (map ft_conf fts))].

(** A recording of one second at 100 Hz whose samples 10 to 59 satisfy
    three of the four criteria. *)
Definition demo_measures : measures :=
  {| ms_sf := 100;
     ms_data := replicate 100 (Fin 0);
     ms_data_sigma := replicate 100 (Fin 0);
     ms_rel_pow := replicate 100 NaN;
     ms_mcorr := replicate 100 NaN;
     ms_mrms := replicate 100 NaN;
     ms_abs_pow_log := replicate 100 NaN;
     ms_inst_freq := replicate 99 NaN |}.

Definition demo_votes : list Z :=
  replicate 10 0 ++ replicate 50 3 ++ replicate 40 0.

(** The run of samples 10 to 59. *)
Definition demo_run : list Z := map Z.of_nat (seq 10 50).

(** A ramp of three samples, the trace of its measures on the test double
    and the measures themselves. *)
Definition ramp3 : list f64 := [Fin 0; Fin 1; Fin 2].

Definition ramp3_trace : list op :=
  [OpFilter 0.5 30; OpFilter 12 15; OpStft 200 195; OpInterp2d;
   OpMoving "corr"; OpInterp1d; OpMoving "rms"; OpInterp1d; OpHilbert 3].

Definition ramp3_measures : measures :=
  {| ms_sf := 100;
     ms_data := ramp3;
     ms_data_sigma := ramp3;
     ms_rel_pow := [NaN; NaN; NaN];
     ms_mcorr := [NaN; NaN; NaN];
     ms_mrms := [NaN; NaN; NaN];
     ms_abs_pow_log := [NaN; NaN; NaN];
     ms_inst_freq := [NaN; NaN] |}.


(** ** Vocabulary of the further properties *)

(** The event indices [get_bool_vector] writes to: the rows
    [(start * sf, end * sf)] handed to [_index_to_events]. *)
Definition event_indices (sf : Q) (starts ends : list Q) : list Z :=
  _index_to_events (zip_with (fun a b => (a * sf, b * sf)%Q) starts ends).

(** Neighbouring elements of the array differ by one. *)
Definition contiguous (k : list Z) : Prop :=
  forall a b, consecutive k a b -> b = a + 1.

(** Number of rows of a column, and the column names of a table. *)
Definition column_length (c : column) : nat :=
  match c with
  | ColQ v => length v
  | ColF v => length v
  | ColS v => length v
  end.

Definition column_names (df : DataFrame) : list string := map fst df.

(** Votes with two groups of three candidate samples, sixty samples
    apart. *)
Definition two_run_votes : list Z :=
  replicate 3 3 ++ replicate 60 0 ++ replicate 3 4.


(** * Properties *)

(** ** Rational scalars *)

Lemma Qltb_spec (x y : Q) : Qltb x y = true <-> (x < y)%Q.
Proof.
  unfold Qltb. rewrite negb_true_iff. split.
  - intros H. destruct (Qlt_le_dec x y) as [|Hle]; [done|].
    apply Qle_bool_iff in Hle. congruence.
  - intros H. destruct (Qle_bool y x) eqn:E; [|done].
    apply Qle_bool_iff in E. exfalso. eapply Qlt_not_le; eauto.
Qed.


Lemma Qeq_bool_false_pos (q : Q) : (0 < q)%Q -> Qeq_bool q 0 = false.
Proof.
  intros H. destruct (Qeq_bool q 0) eqn:E; [|done].
  apply Qeq_bool_eq in E. rewrite E in H. by apply Qlt_irrefl in H.
Qed.




(** ** numpy helpers *)

Lemma where_from_S i m : where_from (S i) m = map S (where_from i m).
Proof.
  revert i. induction m as [|b m IH]; intros i; [done|].
  simpl. destruct b; simpl; by rewrite IH.
Qed.

Lemma elem_of_where_from p i m :
  p ∈ where_from i m <-> exists k : nat, p = (i + k)%nat /\ m !! k = Some true.
Proof.
  revert i. induction m as [|b m IH]; intros i; simpl.
  - split; [by intros ?%elem_of_nil | by intros (k & _ & ?)].
  - assert (p ∈ where_from (S i) m <-> exists k : nat, p = (i + S k)%nat /\ m !! k = Some true) as IH'.
    { rewrite IH. split; intros (k & -> & ?); exists k; split; auto; lia. }
    destruct b.
    + rewrite elem_of_cons, IH'. split.
      * intros [-> | (k & -> & ?)]; [exists 0%nat | exists (S k)]; split; auto; lia.
      * intros ([|k] & -> & Hk); [left; lia | right; exists k; auto].
    + rewrite IH'. split.
      * intros (k & -> & ?). exists (S k). auto.
      * intros ([|k] & -> & Hk); [done | exists k; auto].
Qed.

Lemma take_at_cons_S {A} (d a : A) l ps :
  take_at d (a :: l) (map S ps) = take_at d l ps.
Proof. unfold take_at. rewrite map_map. done. Qed.

Lemma take_at_where_mask {A} (P Q : A -> bool) (l : list A) i :
  take_at 0%nat (where_from i (map P l))
          (where_from 0 (map Q (mask_select l (map P l))))
  = where_from i (map (fun d => P d && Q d) l).
Proof.
  revert i. induction l as [|a l IH]; intros i; [done|].
  cbn [map where_from mask_select]. destruct (P a) eqn:HP.
  - cbn [map where_from andb]. destruct (Q a) eqn:HQ.
    + rewrite (where_from_S 0). change (take_at 0%nat ?l (0%nat :: ?ps)) with (nth 0%nat l 0%nat :: take_at 0%nat l ps).
      cbn [nth]. f_equal. rewrite take_at_cons_S. apply IH.
    + rewrite (where_from_S 0), take_at_cons_S. apply IH.
  - cbn [andb]. apply IH.
Qed.

Lemma np_diff_lookup (l : list Z) (j : nat) (d : Z) :
  np_diff l !! j = Some d <->
  exists a b, l !! j = Some a /\ l !! S j = Some b /\ d = b - a.
Proof.
  unfold np_diff. rewrite lookup_zip_with, lookup_tail. split.
  - intros H. destruct (l !! S j) as [b|] eqn:Eb; simpl in H; [|done].
    destruct (l !! j) as [a|] eqn:Ea; simpl in H; [|done].
    exists a, b. split_and!; congruence.
  - intros (a & b & -> & -> & ->). done.
Qed.

Lemma elem_of_arange_Z a b k : k ∈ arange_Z a b <-> a <= k < b.
Proof.
  unfold arange_Z. rewrite list_elem_of_fmap. split.
  - intros (i & -> & Hi%elem_of_seq). lia.
  - intros H. exists (Z.to_nat (k - a)). split; [lia|]. apply elem_of_seq. lia.
Qed.

(** ** Sorted lists *)




Lemma StronglySorted_lookup_lt (l : list Z) (i j : nat) (x y : Z) :
  StronglySorted Z.lt l -> l !! i = Some x -> l !! j = Some y ->
  (i < j)%nat -> x < y.
Proof.
  intros HS. revert i j x y.
  induction HS as [|a l HS IH HF]; intros i j x y Hi Hj Hij; [done|].
  destruct j as [|j]; [lia|]. simpl in Hj. destruct i as [|i].
  - simpl in Hi. injection Hi as <-.
    rewrite Forall_forall in HF. apply HF.
    eapply list_elem_of_lookup_2; eauto.
  - simpl in Hi. eapply IH; eauto. lia.
Qed.


(** ** Computations *)

Lemma bind_ret_l {A B} (a : A) (f : A -> comp B) : (mret a ≫= f) = f a.
Proof. unfold mbind, comp_bind, mret, comp_ret. simpl. by destruct (f a). Qed.

Lemma bind_ext {A B} (m : comp A) (f g : A -> comp B) :
  (forall a, f a = g a) -> (m ≫= f) = (m ≫= g).
Proof.
  intros H. unfold mbind, comp_bind. destruct (outcome m) as [e|a]; [done|].
  by rewrite H.
Qed.

Lemma bind_raise {A B} (e : exn) (f : A -> comp B) : (raise e ≫= f) = raise e.
Proof. done. Qed.

Lemma bind_trace {A B} (m : comp A) (f : A -> comp B) :
  trace (m ≫= f) =
  trace m ++ match outcome m with inl e => [] | inr a => trace (f a) end.
Proof. unfold mbind, comp_bind. destruct (outcome m); simpl; by rewrite ?app_nil_r. Qed.

Lemma bind_eval {A B} (m : comp A) (f : A -> comp B)
    (tr1 tr2 : list op) (a : A) (r : exn + B) :
  m = Comp tr1 (inr a) -> f a = Comp tr2 r -> (m ≫= f) = Comp (tr1 ++ tr2) r.
Proof. intros -> H. unfold mbind, comp_bind. simpl. by rewrite H. Qed.

Lemma call_bind_trace {A B} (o : op) (r : exn + A) (f : A -> comp B) :
  trace (call o r ≫= f) = o :: match r with inl _ => [] | inr a => trace (f a) end.
Proof. rewrite bind_trace. simpl. by destruct r. Qed.

Lemma call_inv {A} (o : op) (r : exn + A) (tr : list op) (a : A) :
  call o r = Comp tr (inr a) -> tr = [o] /\ r = inr a.
Proof. intros H. injection H as <- ->. done. Qed.



Lemma bind_inr_inv {A B} (m : comp A) (f : A -> comp B) (tr : list op) (b : B) :
  (m ≫= f) = Comp tr (inr b) ->
  exists tr1 a tr2, m = Comp tr1 (inr a) /\ f a = Comp tr2 (inr b) /\ tr = tr1 ++ tr2.
Proof.
  destruct m as [tr1 [e|a]]; unfold mbind, comp_bind; simpl; intros H; [discriminate|].
  exists tr1, a, (trace (f a)). destruct (f a) as [tr2 o]. simpl in *.
  injection H as <- ->. done.
Qed.

Lemma mret_inv {A} (a b : A) (tr : list op) :
  mret a = Comp tr (inr b) -> tr = [] /\ a = b.
Proof. intros H. injection H as <- <-. done. Qed.

Tactic Notation "inv_bind" hyp(H) "as" simple_intropattern(a) :=
  let tr1 := fresh "tr" in
  let tr2 := fresh "tr" in
  let H1 := fresh "Hstep" in
  apply bind_inr_inv in H as (tr1 & a & tr2 & H1 & H & ->).

(** ** float64 *)

Lemma Rzerob_true (r : R) : r = 0%R -> Rzerob r = true.
Proof. intros H. unfold Rzerob. by destruct (Req_dec_T r 0). Qed.

Lemma Rzerob_false (r : R) : r <> 0%R -> Rzerob r = false.
Proof. intros H. unfold Rzerob. by destruct (Req_dec_T r 0). Qed.


Lemma f64_sum_Fin_from (a : R) (l : list R) :
  foldl f64_add (Fin a) (map Fin l) = Fin (foldl Rplus a l).
Proof. revert a. induction l as [|r l IH]; intros a; simpl; [done | apply IH]. Qed.

Lemma f64_sum_Fin (l : list R) : f64_sum (map Fin l) = Fin (Rsum l).
Proof. apply f64_sum_Fin_from. Qed.

Lemma Rsum_from (a : R) (l : list R) : foldl Rplus a l = (a + Rsum l)%R.
Proof.
  unfold Rsum. revert a. induction l as [|r l IH]; intros a; simpl; [lra|].
  rewrite IH, (IH (0 + r)%R). lra.
Qed.

Lemma Rsum_cons (r : R) (l : list R) : Rsum (r :: l) = (r + Rsum l)%R.
Proof. unfold Rsum at 1. simpl. rewrite Rsum_from. lra. Qed.



(** ** Compiled kernels *)

Section KernelFacts.

Context (lib : numlib).

Lemma f64_eqb_zero (r : R) : f64_eqb (Fin r) (Fin 0) = Rzerob r.
Proof.
  simpl. unfold Rzerob.
  destruct (Req_dec_T (r - 0) 0), (Req_dec_T r 0); try done; lra.
Qed.

Lemma jit_div_Fin (a b : R) :
  b <> 0%R -> jit_div lib (Fin a) (Fin b) = mret (Fin (a / b)).
Proof.
  intros Hb. unfold jit_div. rewrite f64_eqb_zero. simpl.
  rewrite (Rzerob_false _ Hb). by destruct (jit_error_model lib).
Qed.

Lemma jit_div_zero (a b : R) :
  a = 0%R -> b = 0%R ->
  jit_div lib (Fin a) (Fin b) =
  match jit_error_model lib with
  | PythonErrors => raise ZeroDivisionError
  | NumpyErrors => mret NaN
  end.
Proof.
  intros Ha Hb. unfold jit_div. rewrite f64_eqb_zero. simpl.
  rewrite (Rzerob_true _ Hb), (Rzerob_true _ Ha). done.
Qed.

Lemma jit_mean_Fin (l : list R) :
  l <> [] -> jit_mean lib (map Fin l) = mret (Fin (Rmean l)).
Proof.
  intros Hl. unfold jit_mean, f64_of_nat, Rmean.
  rewrite f64_sum_Fin, length_map. apply jit_div_Fin.
  apply not_0_INR. by destruct l.
Qed.

Lemma zip_with_mul_Fin (a b : list R) :
  zip_with f64_mul (map Fin a) (map Fin b) = map Fin (zip_with Rmult a b).
Proof.
  revert b. induction a as [|x a IH]; intros [|y b]; simpl; try done.
  by rewrite IH.
Qed.

Lemma map_square_Fin (a : list R) :
  map f64_square (map Fin a) = map Fin (map (fun v => (v * v)%R) a).
Proof. rewrite !map_map. done. Qed.

Lemma center_Fin (l : list R) :
  map (fun v => f64_sub v (Fin (Rmean l))) (map Fin l) = map Fin (centered l).
Proof. unfold centered. rewrite !map_map. done. Qed.

Lemma Rsum_squares_nonneg (l : list R) :
  (0 <= Rsum (map (fun v => (v * v)%R) l))%R.
Proof.
  induction l as [|r l IH]; [unfold Rsum; simpl; lra|].
  simpl. rewrite Rsum_cons. nra.
Qed.

Lemma f64_sqrt_Fin (s : R) : (0 <= s)%R -> f64_sqrt (Fin s) = Fin (sqrt s).
Proof. intros H. simpl. destruct (Rlt_dec s 0); [lra | done]. Qed.

Lemma Rmean_squares_nonneg (l : list R) :
  (0 <= Rmean (map (fun v => (v * v)%R) l))%R.
Proof.
  unfold Rmean. pose proof (Rsum_squares_nonneg l) as Hs.
  destruct l as [|r l].
  - simpl. unfold Rsum. simpl. unfold Rdiv. rewrite Rmult_0_l. lra.
  - apply Rmult_le_pos; [done|]. left. apply Rinv_0_lt_compat.
    rewrite length_map. apply lt_0_INR. simpl. lia.
Qed.

(** On a non-empty window of finite samples [_rms] returns a finite
    value, whatever the error model. *)
Lemma rms_Fin (l : list R) :
  l <> [] ->
  _rms lib (map Fin l) = mret (Fin (sqrt (Rmean (map (fun v => (v * v)%R) l)))).
Proof.
  intros Hl. unfold _rms. rewrite map_square_Fin, jit_mean_Fin.
  - rewrite bind_ret_l. by rewrite f64_sqrt_Fin by apply Rmean_squares_nonneg.
  - by destruct l.
Qed.

(** On non-empty windows of finite samples [_corr] comes down to one
    division of the two real numbers [corr_num] and [corr_den]. *)
Lemma corr_Fin (xs ys : list R) :
  xs <> [] -> ys <> [] ->
  _corr lib (map Fin xs) (map Fin ys)
  = jit_div lib (Fin (corr_num xs ys)) (Fin (corr_den xs ys)).
Proof.
  intros Hx Hy. unfold _corr.
  rewrite (jit_mean_Fin xs Hx), bind_ret_l, (jit_mean_Fin ys Hy), bind_ret_l.
  cbv zeta. rewrite !center_Fin.
  rewrite zip_with_mul_Fin, !map_square_Fin, !f64_sum_Fin.
  rewrite !f64_sqrt_Fin by apply Rsum_squares_nonneg.
  done.
Qed.








End KernelFacts.

(** ** Run merging *)

(** The gaps selected by [_events_distance_fill] and the indices that
    fill them. *)
Lemma events_distance_fill_unfold (index : list Z) (ms sf : Q) :
  _events_distance_fill index ms sf =
  let md := min_distance_samples ms sf in
  let bad := np_where (map (fun d => (1 <? d) && Qltb (inject_Z d) md) (np_diff index)) in
  if (0 <? length bad)%nat then np_sort (index ++ gap_fill index md) else index.
Proof.
  unfold _events_distance_fill, gap_fill, np_where, min_distance_samples.
  cbv zeta. by rewrite take_at_where_mask.
Qed.

Lemma elem_of_gap_fill (index : list Z) (md : Q) (k : Z) :
  k ∈ gap_fill index md <-> in_short_gap index md k.
Proof.
  unfold gap_fill, np_hstack, np_where, in_short_gap, consecutive.
  rewrite list_elem_of_In, in_concat. split.
  - intros (l & Hl & Hk). apply in_map_iff in Hl as (j & <- & Hj).
    apply list_elem_of_In, elem_of_where_from in Hj as (j' & -> & Hj).
    simpl in Hj. apply list_elem_of_In, elem_of_arange_Z in Hk.
    change (0 + j')%nat with j' in Hk. rewrite Nat.add_1_r in Hk.
    change (map ?f ?l) with (f <$> l) in Hj.
    rewrite list_lookup_fmap in Hj.
    destruct (np_diff index !! j') as [d|] eqn:Hd; simpl in Hj; [|done].
    apply np_diff_lookup in Hd as (a & b & Ha & Hb & ->).
    injection Hj as Hj. apply andb_true_iff in Hj as [H1 H2].
    apply Qltb_spec in H2.
    rewrite (nth_lookup_Some _ _ _ _ Ha) in Hk.
    rewrite (nth_lookup_Some _ _ _ _ Hb) in Hk.
    exists a, b. split; [by exists j'|]. split; [lia | done].
  - intros (a & b & (j & Ha & Hb) & Hk & Hmd).
    exists (arange_Z (a + 1) b). split.
    + apply in_map_iff. exists j. split.
      * rewrite (nth_lookup_Some _ _ _ _ Ha).
        rewrite Nat.add_1_r.
        by rewrite (nth_lookup_Some _ _ _ _ Hb).
      * apply list_elem_of_In, elem_of_where_from. exists j. split; [done|].
        change (map ?f ?l) with (f <$> l).
        rewrite list_lookup_fmap.
        assert (np_diff index !! j = Some (b - a)) as ->.
        { apply np_diff_lookup. eauto. }
        simpl. f_equal. apply andb_true_iff. split.
        -- apply Z.ltb_lt. lia.
        -- by apply Qltb_spec.
    + apply list_elem_of_In, elem_of_arange_Z. lia.
Qed.

Lemma events_distance_fill_perm (index : list Z) (ms sf : Q) :
  _events_distance_fill index ms sf ≡ₚ
  index ++ gap_fill index (min_distance_samples ms sf).
Proof.
  rewrite events_distance_fill_unfold. cbv zeta.
  destruct (0 <? length _)%nat eqn:E.
  - apply merge_sort_Permutation.
  - apply Nat.ltb_ge in E. unfold gap_fill at 1.
    destruct (np_where _) as [|? ?]; [|simpl in E; lia].
    simpl. by rewrite app_nil_r.
Qed.

Lemma events_distance_fill_Sorted (index : list Z) (ms sf : Q) :
  Sorted Z.le index -> Sorted Z.le (_events_distance_fill index ms sf).
Proof.
  intros HS. rewrite events_distance_fill_unfold. cbv zeta.
  destruct (0 <? length _)%nat; [|done].
  apply (Sorted_merge_sort Z.le).
Qed.

Lemma elem_of_events_distance_fill (index : list Z) (ms sf : Q) (k : Z) :
  k ∈ _events_distance_fill index ms sf <->
  k ∈ index \/ in_short_gap index (min_distance_samples ms sf) k.
Proof.
  rewrite (events_distance_fill_perm index ms sf), elem_of_app.
  by rewrite elem_of_gap_fill.
Qed.





Lemma StronglySorted_lookup_le (l : list Z) (i j : nat) (x y : Z) :
  StronglySorted Z.lt l -> l !! i = Some x -> l !! j = Some y ->
  (i <= j)%nat -> x <= y.
Proof.
  intros HS Hi Hj Hij. destruct (decide (i = j)) as [->|Hne].
  - rewrite Hi in Hj. injection Hj as ->. lia.
  - apply Z.lt_le_incl. eapply StronglySorted_lookup_lt; eauto. lia.
Qed.

Lemma strictly_sorted_gap_empty (l : list Z) (a b k : Z) :
  StronglySorted Z.lt l -> consecutive l a b -> a < k < b -> k ∉ l.
Proof.
  intros HS (j & Ha & Hb) Hk Hin.
  apply list_elem_of_lookup in Hin as (i & Hi).
  destruct (le_lt_dec i j).
  - assert (k <= a) by (eapply StronglySorted_lookup_le; eauto). lia.
  - assert (b <= k) by (eapply (StronglySorted_lookup_le l (S j) i); eauto). lia.
Qed.




(** ** Moving-window transform *)


Lemma zip_with_map_map {A B C D} (f : B -> C -> D) (g : A -> B) (h : A -> C) l :
  zip_with f (map g l) (map h l) = map (fun a => f (g a) (h a)) l.
Proof. induction l; simpl; by f_equal. Qed.

Section MovingTransform.

Context (lib : numlib).


Lemma string_in_true (s : string) (l : list string) : s ∈ l -> string_in s l = true.
Proof. intros H. unfold string_in. by apply bool_decide_eq_true_2. Qed.

Lemma py_div_nonzero (a b : Q) : ~ (b == 0)%Q -> py_div a b = mret (a / b)%Q.
Proof.
  intros H. unfold py_div. destruct (Qeq_bool b 0) eqn:E; [|done].
  by apply Qeq_bool_eq in E.
Qed.



(** [moving_transform] after its safety checks: the window loop, then the
    optional interpolation. *)
Lemma moving_transform_unfold
    (x : list f64) (y : option (list f64)) (sf window step : Q) (method : string)
    (interp : bool) :
  (0 < step)%Q -> ~ (sf == 0)%Q ->
  method ∈ ["covar"; "corr"; "rms"] ->
  (forall y', y = Some y' -> length x = length y') ->
  moving_transform lib x y sf window step method interp =
  let idx := arange 0 (inject_Z (Z.of_nat (length x)) / sf) step in
  let beg := window_beg sf (window / 2) idx in
  let end_ := window_end sf (window / 2) (Z.of_nat (length x) - 1) idx in
  let t := window_times sf beg end_ in
  tick (OpMoving method);;
  out ← window_loop lib x y method beg end_;
  if interp then
    if negb (Qeq_bool step (1 / sf)) then
      out' ← call OpInterp1d (interp1d lib t out (sample_times (length x) sf));
      mret (sample_times (length x) sf, out')
    else mret (t, out)
  else mret (t, out).
Proof.
  intros Hstep Hsf Hm Hy.
  unfold moving_transform.
  rewrite (string_in_true _ _ Hm).
  change (assert true) with (@mret comp _ _ ()). rewrite bind_ret_l.
  assert (Hy' : match y with
                | Some y' => assert (length x =? length y')%nat
                | None => mret ()
                end = mret ()).
  { destruct y as [y'|]; [|done]. rewrite (Hy y' eq_refl), Nat.eqb_refl. done. }
  rewrite Hy', bind_ret_l.
  rewrite (Qeq_bool_false_pos _ Hstep), bind_ret_l.
  rewrite (py_div_nonzero (inject_Z (Z.of_nat (length x))) sf Hsf), bind_ret_l.
  rewrite (py_div_nonzero 1 sf Hsf).
  cbv zeta. apply bind_ext; intros _. apply bind_ext; intros out.
  destruct interp; [|done]. by rewrite bind_ret_l.
Qed.



End MovingTransform.


(** ** Pearson correlation *)






(** ** Masks *)


Lemma py_index_in_range (n : nat) (i : Z) :
  0 <= i < Z.of_nat n -> py_index n i = inr (Z.to_nat i).
Proof.
  intros H. unfold py_index.
  destruct (Z.leb_spec 0 i); [|lia]. destruct (Z.ltb_spec i (Z.of_nat n)); [done | lia].
Qed.






(** ** A run of the detector on the test double *)

Lemma ramp_corr_den : corr_den [0; 1]%R [0; 1]%R <> 0%R.
Proof.
  unfold corr_den. rewrite sqrt_sqrt by apply Rsum_squares_nonneg.
  unfold centered, Rmean. rewrite !Rsum_cons. simpl. rewrite !Rsum_cons.
  unfold Rsum. simpl. lra.
Qed.

Lemma ramp_window_corr :
  exists v, window_loop stub_lib ramp3 (Some ramp3) "corr" [0] [2] = mret [v].
Proof.
  eexists. unfold window_loop. cbn [zip zip_with for_each].
  change (window_value stub_lib ramp3 (Some ramp3) "corr" (0, 2))
    with (_corr stub_lib (map Fin [0; 1]%R) (map Fin [0; 1]%R)).
  rewrite corr_Fin by done. rewrite (jit_div_Fin _ _ _ ramp_corr_den).
  rewrite !bind_ret_l. reflexivity.
Qed.

Lemma ramp_window_rms :
  exists v, window_loop stub_lib ramp3 (Some ramp3) "rms" [0] [2] = mret [v].
Proof.
  eexists. unfold window_loop. cbn [zip zip_with for_each].
  change (window_value stub_lib ramp3 (Some ramp3) "rms" (0, 2))
    with (_rms stub_lib (map Fin [0; 1]%R)).
  rewrite rms_Fin by done. rewrite !bind_ret_l. reflexivity.
Qed.

Lemma ramp_moving (method : string) (v : f64) :
  method ∈ ["covar"; "corr"; "rms"] ->
  window_loop stub_lib ramp3 (Some ramp3) method [0] [2] = mret [v] ->
  moving_transform stub_lib ramp3 (Some ramp3) 100 0.3 0.1 method true
  = Comp [OpMoving method; OpInterp1d] (inr (sample_times 3 100, [NaN; NaN; NaN])).
Proof.
  intros Hm Hloop.
  rewrite moving_transform_unfold;
    [| reflexivity | discriminate | done | by intros y' [= <-]].
  cbv zeta.
  change (window_beg 100 (0.3 / 2) (arange 0 (inject_Z (Z.of_nat (length ramp3)) / 100) 0.1))
    with [0].
  change (window_end 100 (0.3 / 2) (Z.of_nat (length ramp3) - 1)
            (arange 0 (inject_Z (Z.of_nat (length ramp3)) / 100) 0.1))
    with [2].
  rewrite Hloop. reflexivity.
Qed.

(** The measures of the three-sample ramp on the test double. *)
Lemma ramp_measures :
  compute_measures stub_lib ramp3 100 default_freq_sp default_freq_broad
  = Comp ramp3_trace (inr ramp3_measures).
Proof.
  destruct ramp_window_corr as [vc Hc], ramp_window_rms as [vr Hr].
  assert (E : exists tr ms,
            compute_measures stub_lib ramp3 100 default_freq_sp default_freq_broad
            = Comp tr (inr ms) /\ tr = ramp3_trace /\ ms = ramp3_measures).
  { eexists _, _. split; [|split].
    - unfold compute_measures.
      do 6 (eapply bind_eval; [reflexivity|]; cbv beta iota zeta).
      eapply bind_eval; [exact (ramp_moving "corr" vc ltac:(by repeat constructor) Hc)|].
      cbv beta iota zeta.
      eapply bind_eval; [exact (ramp_moving "rms" vr ltac:(by repeat constructor) Hr)|].
      cbv beta iota zeta.
      eapply bind_eval; [reflexivity|]. cbv beta iota zeta.
      reflexivity.
    - reflexivity.
    - reflexivity. }
  destruct E as (tr & ms & E & -> & ->). exact E.
Qed.

Lemma ramp_vote :
  vote stub_lib ramp3_measures default_thresh = Comp [OpPercentile] (inr [0; 0; 0]).
Proof. reflexivity. Qed.

(** ** Absolute power *)







Section DetectorFacts.

Context (lib : numlib).

Lemma compute_measures_abs_pow data sf freq_sp freq_broad tr ms :
  compute_measures lib data sf freq_sp freq_broad = Comp tr (inr ms) ->
  ms_abs_pow_log ms = map abs_pow_of_rms (ms_mrms ms).
Proof.
  unfold compute_measures. intros H.
  inv_bind H as ?. inv_bind H as ?. inv_bind H as [data1 sf1].
  inv_bind H as data2. inv_bind H as data_sigma. inv_bind H as [[f t] Sxx].
  inv_bind H as [t1 mcorr]. inv_bind H as [t2 mrms]. inv_bind H as analytic.
  apply mret_inv in H as [_ <-]. simpl.
  unfold guard_nonpositive, abs_pow_of_rms. rewrite !map_map. done.
Qed.

End DetectorFacts.



(** ** Segmentation *)

Lemma where_from_bounds (i : nat) (m : list bool) :
  Forall (fun p => (i <= p < i + length m)%nat) (where_from i m).
Proof.
  apply Forall_forall. intros p (k & -> & Hk)%elem_of_where_from.
  apply lookup_lt_Some in Hk. lia.
Qed.

Lemma where_from_sorted (i : nat) (m : list bool) :
  StronglySorted lt (where_from i m).
Proof.
  revert i. induction m as [|b m IH]; intros i; simpl; [constructor|].
  destruct b; [|apply IH]. constructor; [apply IH|].
  eapply Forall_impl; [apply where_from_bounds|]. simpl. lia.
Qed.

(** The candidate indices handed to the merge step are strictly
    increasing. *)
Lemma candidates_strictly_sorted (idx_sum : list Z) :
  StronglySorted Z.lt (candidates idx_sum).
Proof.
  unfold candidates, np_where.
  pose proof (where_from_sorted 0 (map (fun v => 3 <=? v) idx_sum)) as Hs.
  induction Hs as [|p ps Hs IH Hp]; simpl; constructor; [done|].
  apply List.Forall_map. eapply Forall_impl; [exact Hp|]. simpl. lia.
Qed.

Lemma split_from_nonempty {A} (l : list A) (prev : nat) (cuts : list nat) :
  (prev < length l)%nat ->
  Forall (fun c => (c < length l)%nat) cuts ->
  StronglySorted lt (prev :: cuts) ->
  Forall (fun k => k <> []) (split_from l prev cuts).
Proof.
  revert prev. induction cuts as [|c cs IH]; intros prev Hprev Hcuts Hs; simpl.
  - constructor; [|constructor]. intros H.
    apply (f_equal length) in H. rewrite length_drop in H. simpl in H. lia.
  - apply Forall_cons in Hcuts as [Hc Hcs].
    apply StronglySorted_inv in Hs as [Hs Hlt].
    apply Forall_cons in Hlt as [Hpc _].
    constructor.
    + intros H. apply (f_equal length) in H. unfold slice in H.
      rewrite length_take, length_drop in H. simpl in H. lia.
    + by apply IH.
Qed.

Lemma np_diff_length (l : list Z) : length (np_diff l) = (length l - 1)%nat.
Proof.
  unfold np_diff. rewrite length_zip_with. destruct l; simpl; [done|]. lia.
Qed.

Lemma split_runs_nonempty (l : list Z) :
  l <> [] -> Forall (fun k => k <> []) (split_runs l).
Proof.
  intros Hl. unfold split_runs, np_split, np_where.
  assert (0 < length l)%nat by (destruct l; [done | simpl; lia]).
  set (m := map _ (np_diff l)).
  assert (Hm : length m = (length l - 1)%nat).
  { unfold m. by rewrite length_map, np_diff_length. }
  apply split_from_nonempty; [done | |].
  - apply List.Forall_map. eapply Forall_impl; [apply where_from_bounds|].
    simpl. intros p Hp. lia.
  - constructor.
    + pose proof (where_from_sorted 0 m) as Hs.
      induction Hs as [|p ps Hs IH Hp]; simpl; constructor; [done|].
      apply List.Forall_map. eapply Forall_impl; [exact Hp|]. simpl. lia.
    + apply List.Forall_map. apply Forall_forall. intros p _. lia.
Qed.

Lemma merge_events_nonempty (md : option Q) (sf : Q) (w : list Z) :
  w <> [] -> merge_events md sf w <> [].
Proof.
  intros Hw. unfold merge_events. destruct md as [md|]; [|done].
  destruct (Qltb 0 md); [|done].
  intros H. pose proof (events_distance_fill_perm w md sf) as Hp.
  rewrite H in Hp. apply Permutation_nil_l in Hp. symmetry in Hp.
  by apply app_eq_nil in Hp as [-> _].
Qed.

(** *** Reading the ends of a run *)

Lemma getitem_first {A} (k : list A) (a : A) :
  head k = Some a -> getitem k 0 = mret a.
Proof.
  intros H. destruct k as [|x k]; [done|]. injection H as ->. reflexivity.
Qed.

Lemma getitem_last {A} (k : list A) (b : A) :
  last k = Some b -> getitem k (-1) = mret b.
Proof.
  intros H. unfold getitem, py_index.
  assert (0 < length k)%nat by (destruct k; [done | simpl; lia]).
  destruct (0 <=? -1) eqn:E1; [done|]. simpl.
  destruct (- Z.of_nat (length k) <=? -1) eqn:E2; [|lia]. simpl.
  rewrite last_lookup in H.
  replace (Z.to_nat (-1 + Z.of_nat (length k))) with (Init.Nat.pred (length k)) by lia.
  by rewrite H.
Qed.

Lemma run_ends (sf : Q) (runs : list (list Z)) :
  Forall (fun k => k <> []) runs ->
  for_each (fun k => a ← getitem k 0; b ← getitem k (-1);
                     mret ((inject_Z a / sf)%Q, (inject_Z b / sf)%Q)) runs
  = mret (map (fun k => (run_start sf k, run_end sf k)) runs).
Proof.
  induction 1 as [|k runs Hk _ IH]; [done|].
  cbn [for_each map]. rewrite IH.
  destruct (head k) as [a|] eqn:Ha; [|by destruct k].
  destruct (last k) as [b|] eqn:Hb; [|by apply last_None in Hb].
  rewrite (getitem_first k a Ha), bind_ret_l, (getitem_last k b Hb), !bind_ret_l.
  unfold run_start, run_end. by rewrite Ha, Hb.
Qed.

Lemma zip_with_minus_spans (sf : Q) (runs : list (list Z)) :
  zip_with Qminus (map snd (map (fun k => (run_start sf k, run_end sf k)) runs))
                  (map fst (map (fun k => (run_start sf k, run_end sf k)) runs))
  = map (run_span sf) runs.
Proof. rewrite !map_map. simpl. rewrite zip_with_map_map. done. Qed.

Lemma good_duration_runs (duration : Q * Q) (sf : Q) (runs : list (list Z)) :
  good_duration duration (map (run_span sf) runs) = map (good_run duration sf) runs.
Proof. unfold good_duration. by rewrite map_map. Qed.


Lemma forallb_negb_map {A} (g : A -> bool) (l : list A) :
  forallb negb (map g l) = true <-> Forall (fun a => g a = false) l.
Proof.
  induction l as [|a l IH]; simpl.
  - split; [constructor | done].
  - rewrite andb_true_iff, IH, Forall_cons, negb_true_iff. done.
Qed.

(** ** The event stage *)

Lemma where_from_all_false (i : nat) (m : list bool) :
  Forall (fun b => b = false) m -> where_from i m = [].
Proof.
  intros H. revert i. induction H as [|b m Hb _ IH]; intros i; [done|].
  simpl. rewrite Hb. apply IH.
Qed.

Lemma candidates_none (idx_sum : list Z) :
  Forall (fun v => v < 3) idx_sum -> candidates idx_sum = [].
Proof.
  intros H. unfold candidates, np_where.
  rewrite where_from_all_false; [done|].
  apply List.Forall_map. eapply Forall_impl; [exact H|].
  simpl. intros v Hv. apply Z.leb_gt. lia.
Qed.

Section EventStage.

Context (lib : numlib).

Lemma detect_events_unfold (ms : measures) (idx_sum : list Z) (duration : Q * Q)
    (min_distance : option Q) :
  detect_events lib ms idx_sum duration min_distance =
  let sf := ms_sf ms in
  let runs := merged_runs min_distance sf idx_sum in
  let good := map (good_run duration sf) runs in
  if (length (candidates idx_sum) =? 0)%nat then
    tick (OpPrint no_spindle_msg);; mret None
  else if forallb negb good then
    tick (OpPrint no_spindle_msg);; mret None
  else
    fts ← for_each (fun kg : list Z * bool =>
                      if kg.2 then run_features lib ms idx_sum (60 * sf / 1000)%Q kg.1
                      else mret features_init)
                   (zip runs good);
    mret (Some (df_filter (events_table sf runs fts) good)).
Proof.
  unfold detect_events. cbv zeta. fold (candidates idx_sum).
  destruct (length (candidates idx_sum) =? 0)%nat eqn:E; [done|].
  fold (merged_runs min_distance (ms_sf ms) idx_sum).
  assert (Hne : Forall (fun k => k <> []) (merged_runs min_distance (ms_sf ms) idx_sum)).
  { apply split_runs_nonempty, merge_events_nonempty.
    intros H. rewrite H in E. done. }
  rewrite (run_ends _ _ Hne), bind_ret_l.
  rewrite zip_with_minus_spans, good_duration_runs.
  destruct (forallb negb _); [done|].
  unfold events_table. rewrite !map_map. done.
Qed.

Lemma detect_events_none (ms : measures) (idx_sum : list Z) (duration : Q * Q)
    (min_distance : option Q) :
  Forall (fun v => v < 3) idx_sum \/
  Forall (fun k => good_run duration (ms_sf ms) k = false)
         (merged_runs min_distance (ms_sf ms) idx_sum) ->
  detect_events lib ms idx_sum duration min_distance
  = Comp [OpPrint no_spindle_msg] (inr None).
Proof.
  intros H. rewrite detect_events_unfold. cbv zeta.
  destruct (length (candidates idx_sum) =? 0)%nat eqn:E; [done|].
  destruct H as [H | H].
  - rewrite (candidates_none _ H) in E. done.
  - apply forallb_negb_map in H. by rewrite H.
Qed.


End EventStage.

(** C3. When the criteria have been computed and either no sample has a
    vote of at least 3 or no merged run has a good duration,
    [spindles_detect] prints its message and returns [None]: it raises
    nothing, and the outcome is not a table. *)
Theorem spindles_detect_none (lib : numlib) (data : list f64) (sf : Q)
    (freq_sp duration freq_broad : Q * Q) (min_distance : option Q)
    (thresh : gmap string R) (tr tr' : list op) (ms : measures) (idx_sum : list Z) :
  compute_measures lib data sf freq_sp freq_broad = Comp tr (inr ms) ->
  vote lib ms thresh = Comp tr' (inr idx_sum) ->
  Forall (fun v => v < 3) idx_sum \/
  Forall (fun k => good_run duration (ms_sf ms) k = false)
         (merged_runs min_distance (ms_sf ms) idx_sum) ->
  spindles_detect lib data sf freq_sp duration freq_broad min_distance thresh
  = Comp (tr ++ tr' ++ [OpPrint no_spindle_msg]) (inr None) /\
  (forall e, outcome (spindles_detect lib data sf freq_sp duration freq_broad
                        min_distance thresh) <> inl e) /\
  (forall df, outcome (spindles_detect lib data sf freq_sp duration freq_broad
                         min_distance thresh) <> inr (Some df)).
Proof.
  intros Hms Hvote Hnone.
  assert (E : spindles_detect lib data sf freq_sp duration freq_broad min_distance thresh
              = Comp (tr ++ tr' ++ [OpPrint no_spindle_msg]) (inr None)).
  { unfold spindles_detect. rewrite Hms. unfold mbind at 1, comp_bind at 1. simpl.
    rewrite Hvote. unfold mbind at 1 2, comp_bind at 1 2. simpl.
    by rewrite (detect_events_none lib ms idx_sum duration min_distance Hnone). }
  rewrite E. simpl. split_and!; [done | discriminate | discriminate].
Qed.

Lemma spindles_detect_none_example :
  spindles_detect stub_lib ramp3 100 default_freq_sp default_duration
    default_freq_broad default_min_distance default_thresh
  = Comp (ramp3_trace ++ [OpPercentile] ++ [OpPrint no_spindle_msg]) (inr None).
Proof.
  destruct (spindles_detect_none stub_lib ramp3 100 default_freq_sp default_duration
              default_freq_broad default_min_distance default_thresh
              ramp3_trace [OpPercentile] ramp3_measures [0; 0; 0]
              ramp_measures ramp_vote) as (H & _).
  - left. repeat constructor.
  - exact H.
Defined.


Lemma demo_merged_runs :
  merged_runs default_min_distance (ms_sf demo_measures) demo_votes = [demo_run].
Proof. by vm_compute. Qed.

Lemma demo_run_features :
  exists tr ft,
    run_features stub_lib demo_measures demo_votes (60 * ms_sf demo_measures / 1000)%Q
      demo_run
    = Comp tr (inr ft).
Proof.
  eexists _, _. unfold run_features.
  do 3 (eapply bind_eval; [reflexivity|]; cbv beta iota zeta).
  eapply bind_eval;
    [exact (rms_Fin stub_lib (replicate 50 0%R) ltac:(discriminate))|].
  cbv beta iota zeta.
  do 9 (eapply bind_eval; [reflexivity|]; cbv beta iota zeta).
  reflexivity.
Qed.


(** ** Traces of the detector *)

Section Traces.

Context (lib : numlib).

Lemma downsample_bandpass_calls data sf :
  bandpass_calls (trace (downsample lib data sf)) = [].
Proof.
  unfold downsample. destruct (Qle_bool 200 sf); [|done].
  cbv zeta. rewrite call_bind_trace. by destruct (resample lib data _).
Qed.

Lemma downsample_trace data sf tr data1 sf1 :
  downsample lib data sf = Comp tr (inr (data1, sf1)) ->
  Qle_bool 200 sf = true -> OpResample (100 / sf) ∈ tr.
Proof.
  unfold downsample. intros H Hsf. rewrite Hsf in H. cbv zeta in H.
  inv_bind H as data'. apply call_inv in Hstep as [-> _]. set_solver.
Qed.

Lemma moving_transform_trace x y sf window step method interp tr r :
  moving_transform lib x y sf window step method interp = Comp tr (inr r) ->
  OpMoving method ∈ tr.
Proof.
  unfold moving_transform. intros H.
  inv_bind H as ?. inv_bind H as ?. inv_bind H as step'. inv_bind H as total_dur.
  inv_bind H as ?. injection Hstep3 as <-. set_solver.
Qed.

Lemma stft_power_trace data sf window step band interp norm tr r :
  stft_power lib data sf window step band interp norm = Comp tr (inr r) ->
  exists a b, OpStft a b ∈ tr.
Proof.
  unfold stft_power. intros H.
  inv_bind H as ?. inv_bind H as ?. inv_bind H as step'. inv_bind H as [[f t] Zxx].
  apply call_inv in Hstep2 as [-> _]. eexists _, _.
  do 3 (apply elem_of_app; right). apply list_elem_of_here.
Qed.

Lemma compute_measures_trace data sf freq_sp freq_broad tr ms :
  compute_measures lib data sf freq_sp freq_broad = Comp tr (inr ms) ->
  (Qle_bool 200 sf = true -> OpResample (100 / sf) ∈ tr) /\
  OpFilter freq_broad.1 freq_broad.2 ∈ tr /\
  OpFilter (sigma_band freq_sp).1 (sigma_band freq_sp).2 ∈ tr /\
  (exists a b, OpStft a b ∈ tr) /\
  OpMoving "corr" ∈ tr /\
  OpMoving "rms" ∈ tr.
Proof.
  unfold compute_measures. intros H.
  inv_bind H as ?. inv_bind H as ?. inv_bind H as [data1 sf1].
  inv_bind H as data2. inv_bind H as data_sigma. inv_bind H as [[f t] Sxx].
  inv_bind H as [t1 mcorr]. inv_bind H as [t2 mrms]. inv_bind H as analytic.
  apply call_inv in Hstep2 as [-> _]. apply call_inv in Hstep3 as [-> _].
  apply stft_power_trace in Hstep4 as (a & b & Hab).
  apply moving_transform_trace in Hstep5, Hstep6.
  split_and!.
  - intros Hsf. pose proof (downsample_trace _ _ _ _ _ Hstep1 Hsf). set_solver.
  - set_solver.
  - set_solver.
  - exists a, b. set_solver.
  - set_solver.
  - set_solver.
Qed.

Lemma compute_measures_trace_prefix data sf freq_sp freq_broad pre data1 sf1 data2 :
  (freq_sp.1 < freq_sp.2)%Q -> (freq_broad.1 < freq_broad.2)%Q ->
  downsample lib data sf = Comp pre (inr (data1, sf1)) ->
  filter_data lib data1 sf1 freq_broad.1 freq_broad.2 = inr data2 ->
  exists rest,
    trace (compute_measures lib data sf freq_sp freq_broad)
    = pre ++ OpFilter freq_broad.1 freq_broad.2
          :: OpFilter (sigma_band freq_sp).1 (sigma_band freq_sp).2 :: rest.
Proof.
  intros Hsp%Qltb_spec Hbroad%Qltb_spec Hdown Hfilt.
  unfold compute_measures. rewrite Hsp, Hbroad.
  change (assert true) with (@mret comp _ _ ()). rewrite !bind_ret_l.
  rewrite Hdown, bind_trace. cbn [trace outcome]. rewrite Hfilt, call_bind_trace.
  rewrite call_bind_trace. eexists. reflexivity.
Qed.

End Traces.

Lemma sigma_band_wide (freq_sp : Q * Q) :
  (3 < freq_sp.2 - freq_sp.1)%Q ->
  sigma_band freq_sp = ((freq_sp.1 + 1)%Q, (freq_sp.2 - 1)%Q).
Proof. intros H. unfold sigma_band. apply Qltb_spec in H. by rewrite H. Qed.

Lemma sigma_band_narrow (freq_sp : Q * Q) :
  (freq_sp.2 - freq_sp.1 <= 3)%Q ->
  sigma_band freq_sp = ((freq_sp.1 + 0)%Q, (freq_sp.2 - 0)%Q).
Proof.
  intros H. unfold sigma_band. destruct (Qltb 3 _) eqn:E; [|done].
  apply Qltb_spec in E. exfalso. eapply Qlt_not_le; eauto.
Qed.

(** C1 (amended). Once the broadband filter has run, the second band-pass
    of [spindles_detect] is called with the sigma band narrowed by 1 Hz on
    each side, from [freq_sp[0] + 1] to [freq_sp[1] - 1], when the band is
    wider than 3 Hz, and with the band unchanged otherwise. *)
Theorem second_bandpass_narrowed (lib : numlib) (data : list f64) (sf : Q)
    (freq_sp duration freq_broad : Q * Q) (min_distance : option Q)
    (thresh : gmap string R) (pre : list op) (data1 : list f64) (sf1 : Q)
    (data2 : list f64) :
  (freq_sp.1 < freq_sp.2)%Q -> (freq_broad.1 < freq_broad.2)%Q ->
  downsample lib data sf = Comp pre (inr (data1, sf1)) ->
  filter_data lib data1 sf1 freq_broad.1 freq_broad.2 = inr data2 ->
  exists l h,
    bandpass_calls (trace (spindles_detect lib data sf freq_sp duration freq_broad
                             min_distance thresh)) !! 1%nat = Some (l, h) /\
    ((3 < freq_sp.2 - freq_sp.1)%Q -> (l == freq_sp.1 + 1)%Q /\ (h == freq_sp.2 - 1)%Q) /\
    ((freq_sp.2 - freq_sp.1 <= 3)%Q -> (l == freq_sp.1)%Q /\ (h == freq_sp.2)%Q).
Proof.
  intros Hsp Hbroad Hdown Hfilt.
  destruct (compute_measures_trace_prefix lib data sf freq_sp freq_broad
              pre data1 sf1 data2 Hsp Hbroad Hdown Hfilt) as (rest & Htr).
  exists (sigma_band freq_sp).1, (sigma_band freq_sp).2. split_and!.
  - unfold spindles_detect. rewrite bind_trace, Htr.
    unfold bandpass_calls. rewrite <- !app_assoc, omap_app.
    pose proof (downsample_bandpass_calls lib data sf) as Hpre.
    rewrite Hdown in Hpre. unfold bandpass_calls in Hpre. simpl in Hpre.
    rewrite Hpre. simpl. by destruct (sigma_band freq_sp).
  - intros H. rewrite (sigma_band_wide _ H). simpl. split; reflexivity.
  - intros H. rewrite (sigma_band_narrow _ H). simpl. split; ring.
Qed.

Lemma second_bandpass_narrowed_example :
  exists l h,
    bandpass_calls (trace (spindles_detect stub_lib ramp3 100 default_freq_sp
                             default_duration default_freq_broad
                             default_min_distance default_thresh)) !! 1%nat
    = Some (l, h) /\ (l == 12)%Q /\ (h == 15)%Q.
Proof.
  destruct (second_bandpass_narrowed stub_lib ramp3 100 default_freq_sp
              default_duration default_freq_broad default_min_distance
              default_thresh [] ramp3 100 ramp3)
    as (l & h & H1 & H2 & _).
  - reflexivity.
  - reflexivity.
  - reflexivity.
  - reflexivity.
  - exists l, h. split; [exact H1|]. apply H2. reflexivity.
Defined.

(** C1 as stated fails: for the default band (11, 16) the second
    band-pass is called on (12, 15), not on (10, 17). *)
Lemma second_bandpass_not_widened :
  bandpass_calls (trace (spindles_detect stub_lib ramp3 100 default_freq_sp
                           default_duration default_freq_broad
                           default_min_distance default_thresh)) !! 1%nat
  = Some (12%Q, 15%Q) /\
  ~ (12 == default_freq_sp.1 - 1)%Q /\ ~ (15 == default_freq_sp.2 + 1)%Q.
Proof.
  split_and!; [|discriminate..].
  unfold spindles_detect. rewrite bind_trace, ramp_measures. reflexivity.
Qed.

(** C2 (amended). A threshold configuration lacking one of the four
    fields is not rejected up front.  The call fails in any case; when the
    measures are computed successfully, the resampling (for a rate of at
    least 200 Hz), both band-pass filters, the STFT and both moving
    statistics have been performed by then, and the call fails at the
    thresholding step with a [KeyError] naming a missing field. *)
Theorem missing_threshold_key_error (lib : numlib) (data : list f64) (sf : Q)
    (freq_sp duration freq_broad : Q * Q) (min_distance : option Q)
    (thresh : gmap string R) :
  (exists k, k ∈ required_keys /\ thresh !! k = None) ->
  (forall tr e,
     compute_measures lib data sf freq_sp freq_broad = Comp tr (inl e) ->
     spindles_detect lib data sf freq_sp duration freq_broad min_distance thresh
     = Comp tr (inl e)) /\
  (forall tr ms,
     compute_measures lib data sf freq_sp freq_broad = Comp tr (inr ms) ->
     (exists k, k ∈ required_keys /\ thresh !! k = None /\
        spindles_detect lib data sf freq_sp duration freq_broad min_distance thresh
        = Comp tr (inl (KeyError k))) /\
     (Qle_bool 200 sf = true -> OpResample (100 / sf) ∈ tr) /\
     OpFilter freq_broad.1 freq_broad.2 ∈ tr /\
     OpFilter (sigma_band freq_sp).1 (sigma_band freq_sp).2 ∈ tr /\
     (exists a b, OpStft a b ∈ tr) /\
     OpMoving "corr" ∈ tr /\
     OpMoving "rms" ∈ tr).
Proof.
  intros (k & Hk & Hmiss). split.
  - intros tr e H. unfold spindles_detect. by rewrite H.
  - intros tr ms H. split; [|by eapply compute_measures_trace].
    assert (Hvote : exists k', k' ∈ required_keys /\ thresh !! k' = None /\
                      vote lib ms thresh = raise (KeyError k')).
    { unfold vote, dict_get.
      destruct (thresh !! "abs_pow") as [t_abs|] eqn:E1;
        [|exists "abs_pow"; split_and!; [by repeat constructor | done | done]].
      rewrite bind_ret_l. cbv zeta.
      destruct (thresh !! "rel_pow") as [t_rel|] eqn:E2;
        [|exists "rel_pow"; split_and!; [by repeat constructor | done | done]].
      rewrite bind_ret_l. cbv zeta.
      destruct (thresh !! "corr") as [t_corr|] eqn:E3;
        [|exists "corr"; split_and!; [by repeat constructor | done | done]].
      rewrite bind_ret_l. cbv zeta.
      destruct (thresh !! "rms") as [t_rms|] eqn:E4;
        [|exists "rms"; split_and!; [by repeat constructor | done | done]].
      exfalso. unfold required_keys in Hk.
      repeat (apply elem_of_cons in Hk as [-> | Hk]; [congruence|]).
      by apply elem_of_nil in Hk. }
    destruct Hvote as (k' & Hk' & Hmiss' & Hvote).
    exists k'. split_and!; [done | done |].
    unfold spindles_detect. rewrite H. unfold mbind at 1, comp_bind at 1.
    cbn [outcome trace]. rewrite Hvote, bind_raise. simpl. by rewrite app_nil_r.
Qed.

Lemma missing_threshold_key_error_example :
  exists k,
    spindles_detect stub_lib ramp3 100 default_freq_sp default_duration
      default_freq_broad default_min_distance (delete "corr" default_thresh)
    = Comp ramp3_trace (inl (KeyError k)) /\
    OpFilter 0.5 30 ∈ ramp3_trace.
Proof.
  destruct (missing_threshold_key_error stub_lib ramp3 100 default_freq_sp
              default_duration default_freq_broad default_min_distance
              (delete "corr" default_thresh)) as [_ H].
  - exists "corr". split; [by repeat constructor | reflexivity].
  - destruct (H ramp3_trace ramp3_measures ramp_measures)
      as ((k & _ & _ & Hk) & _ & Hf & _).
    exists k. split; [exact Hk | exact Hf].
Defined.

(** C2 as stated fails: without the [corr] field the default call on a
    short signal filters twice, computes the STFT and both moving
    statistics, and only then fails, with a [KeyError]. *)
Lemma missing_corr_fails_late :
  spindles_detect stub_lib ramp3 100 default_freq_sp default_duration
    default_freq_broad default_min_distance (delete "corr" default_thresh)
  = Comp [OpFilter 0.5 30; OpFilter 12 15; OpStft 200 195; OpInterp2d;
          OpMoving "corr"; OpInterp1d; OpMoving "rms"; OpInterp1d; OpHilbert 3]
         (inl (KeyError "corr")) /\
  default_thresh !! "corr" = Some 0.69%R /\
  delete "corr" default_thresh !! "corr" = None /\
  ~ (exists tr, spindles_detect stub_lib ramp3 100 default_freq_sp default_duration
                  default_freq_broad default_min_distance
                  (delete "corr" default_thresh)
                = Comp tr (inl AssertionError) /\ tr = []).
Proof.
  assert (E : spindles_detect stub_lib ramp3 100 default_freq_sp default_duration
                default_freq_broad default_min_distance (delete "corr" default_thresh)
              = Comp ramp3_trace (inl (KeyError "corr"))).
  { unfold spindles_detect. rewrite ramp_measures. reflexivity. }
  split_and!; [exact E | reflexivity | reflexivity |].
  intros (tr & H & _). rewrite E in H. discriminate.
Qed.

(** * Further properties *)

(** ** Early failures *)

Lemma Qltb_false (x y : Q) : ~ (x < y)%Q -> Qltb x y = false.
Proof.
  intros H. destruct (Qltb x y) eqn:E; [|done]. by apply Qltb_spec in E.
Qed.

Lemma string_in_false (s : string) (l : list string) : s ∉ l -> string_in s l = false.
Proof. intros H. unfold string_in. by apply bool_decide_eq_false_2. Qed.

(** X1. An unordered spindle band or broad band fails the call of
    [spindles_detect] with [AssertionError] before anything is computed:
    the trace of array operations is empty. *)
Theorem spindles_detect_band_order (lib : numlib) (data : list f64) (sf : Q)
    (freq_sp duration freq_broad : Q * Q) (min_distance : option Q)
    (thresh : gmap string R) :
  ~ (freq_sp.1 < freq_sp.2)%Q \/ ~ (freq_broad.1 < freq_broad.2)%Q ->
  spindles_detect lib data sf freq_sp duration freq_broad min_distance thresh
  = Comp [] (inl AssertionError).
Proof.
  intros H. unfold spindles_detect, compute_measures.
  destruct (Qltb freq_sp.1 freq_sp.2) eqn:E1.
  - destruct H as [H | H]; [by apply Qltb_spec in E1|].
    by rewrite (Qltb_false _ _ H).
  - done.
Qed.

Lemma spindles_detect_band_order_example :
  spindles_detect failing_lib [Fin 1; Fin 2] 100 (16, 11)%Q default_duration
    default_freq_broad default_min_distance default_thresh
  = Comp [] (inl AssertionError).
Proof.
  apply spindles_detect_band_order. left. simpl. intros H. by vm_compute in H.
Defined.

(** X2. [moving_transform] rejects an unknown method name, and a second
    signal whose length differs from the first, with [AssertionError]
    before it looks at the sampling rate or at the samples. *)
Theorem moving_transform_rejects (lib : numlib) (x : list f64) (y : option (list f64))
    (sf window step : Q) (method : string) (interp : bool) :
  method ∉ ["covar"; "corr"; "rms"] \/
  (exists y', y = Some y' /\ length x <> length y') ->
  moving_transform lib x y sf window step method interp = Comp [] (inl AssertionError).
Proof.
  intros H. unfold moving_transform.
  destruct (string_in method ["covar"; "corr"; "rms"]) eqn:E.
  - destruct H as [H | (y' & -> & H)].
    + by rewrite (string_in_false _ _ H) in E.
    + apply Nat.eqb_neq in H. rewrite H. done.
  - done.
Qed.

Lemma moving_transform_rejects_example :
  moving_transform failing_lib [Fin 1; Fin 2] (Some [Fin 1]) 100 0.3 0.1 "corr" false
  = Comp [] (inl AssertionError).
Proof.
  apply moving_transform_rejects. right. exists [Fin 1]. split; [done | discriminate].
Defined.

(** X3. With a valid method and signals of equal length, a sampling rate of
    zero makes [moving_transform] raise [ZeroDivisionError]: from
    [1 / sf] when the step is zero, from [n / sf] otherwise. *)
Theorem moving_transform_zero_rate (lib : numlib) (x : list f64) (y : option (list f64))
    (sf window step : Q) (method : string) (interp : bool) :
  method ∈ ["covar"; "corr"; "rms"] ->
  (forall y', y = Some y' -> length x = length y') ->
  (sf == 0)%Q ->
  moving_transform lib x y sf window step method interp
  = Comp [] (inl ZeroDivisionError).
Proof.
  intros Hm Hy Hsf. unfold moving_transform.
  rewrite (string_in_true _ _ Hm).
  change (assert true) with (@mret comp _ _ ()). rewrite bind_ret_l.
  assert (Hy' : match y with
                | Some y' => assert (length x =? length y')%nat
                | None => mret ()
                end = mret ()).
  { destruct y as [y'|]; [|done]. rewrite (Hy y' eq_refl), Nat.eqb_refl. done. }
  rewrite Hy', bind_ret_l.
  assert (Hdiv : forall a, py_div a sf = raise ZeroDivisionError).
  { intros a. unfold py_div. by rewrite (proj2 (Qeq_bool_iff sf 0) Hsf). }
  destruct (Qeq_bool step 0).
  - by rewrite (Hdiv 1%Q).
  - rewrite bind_ret_l, (Hdiv (inject_Z (Z.of_nat (length x)))). reflexivity.
Qed.

Lemma moving_transform_zero_rate_example :
  moving_transform failing_lib [Fin 1; Fin 2] None 0 0.3 0.1 "rms" false
  = Comp [] (inl ZeroDivisionError).
Proof.
  apply moving_transform_zero_rate.
  - by repeat constructor.
  - discriminate.
  - reflexivity.
Defined.

(** X4. [stft_power] rejects a step longer than the window, and an unordered
    band, with [AssertionError] before the transform is computed. *)
Theorem stft_power_rejects (lib : numlib) (data : list f64) (sf window step : Q)
    (band : Q * Q) (interp norm : bool) :
  ~ (step <= window)%Q \/ ~ (band.1 < band.2)%Q ->
  stft_power lib data sf window step band interp norm = Comp [] (inl AssertionError).
Proof.
  intros H. unfold stft_power.
  destruct (Qle_bool step window) eqn:E1.
  - destruct H as [H | H]; [by apply Qle_bool_iff in E1|].
    by rewrite (Qltb_false _ _ H).
  - done.
Qed.

Lemma stft_power_rejects_example :
  stft_power stub_lib [Fin 1; Fin 2] 100 2 4 default_freq_broad true false
  = Comp [] (inl AssertionError).
Proof.
  apply stft_power_rejects. left. intros H. by vm_compute in H.
Defined.

(** ** Masks and event indices *)

Lemma Qtrunc_integral (q : Q) (z : Z) : (q == inject_Z z)%Q -> Qtrunc q = z.
Proof.
  unfold Qeq, Qtrunc. simpl. intros H. rewrite Z.mul_1_r in H. rewrite H.
  apply Z.quot_mul. done.
Qed.

(** X5. On rows of integers [_index_to_events] lists, row after row, the
    integers from the first to the second entry of the row; a row whose
    second entry is below the first contributes nothing, and nothing is
    sorted or deduplicated. *)
Theorem index_to_events_integral (rows : list (Z * Z)) :
  _index_to_events (map (fun r => (inject_Z r.1, inject_Z r.2)) rows)
  = concat (map (fun r => arange_Z r.1 (r.2 + 1)) rows).
Proof.
  unfold _index_to_events.
  induction rows as [|[a b] rows IH]; [done|].
  cbn [map concat]. rewrite map_app, IH. f_equal. cbn [fst snd].
  unfold arange, arange_Z, arange_len. rewrite map_map.
  assert (E : Qceiling ((inject_Z b + 1 - inject_Z a) / 1) = b + 1 - a).
  { rewrite (Qceiling_comp _ (inject_Z (b + 1 - a))).
    - apply Qceiling_Z.
    - unfold Z.sub. rewrite !inject_Z_plus, inject_Z_opp.
      change (inject_Z 1) with 1%Q. field. }
  rewrite E. apply map_ext. intros i. apply Qtrunc_integral.
  rewrite inject_Z_plus. ring.
Qed.

Lemma py_index_wrap (n : nat) (i : Z) :
  - Z.of_nat n <= i < 0 -> py_index n i = inr (Z.to_nat (i + Z.of_nat n)).
Proof.
  intros H. unfold py_index.
  destruct (Z.leb_spec 0 i); [lia|]. simpl.
  destruct (Z.leb_spec (- Z.of_nat n) i); [|lia].
  destruct (Z.ltb_spec i 0); [done | lia].
Qed.

Lemma py_index_out (n : nat) (i : Z) :
  i < - Z.of_nat n \/ Z.of_nat n <= i -> py_index n i = inl IndexError.
Proof.
  intros H. unfold py_index.
  destruct (Z.leb_spec 0 i); destruct (Z.ltb_spec i (Z.of_nat n));
    destruct (Z.leb_spec (- Z.of_nat n) i); destruct (Z.ltb_spec i 0);
    simpl; try done; lia.
Qed.

(** An index array with an entry outside [-n, n) makes the assignment
    raise. *)
Lemma fancy_set_out_of_range {A} (l : list A) (idx : list Z) (v : A) :
  Exists (fun i => i < - Z.of_nat (length l) \/ Z.of_nat (length l) <= i) idx ->
  fancy_set l idx v = raise IndexError.
Proof.
  revert l. induction idx as [|i idx IH]; intros l H; [by apply Exists_nil in H|].
  simpl. destruct (py_index (length l) i) as [e|p] eqn:E.
  - unfold py_index in E.
    destruct ((0 <=? i) && (i <? Z.of_nat (length l))); [discriminate|].
    destruct ((- Z.of_nat (length l) <=? i) && (i <? 0)); [discriminate|].
    by injection E as <-.
  - apply IH. apply Exists_cons in H as [H | H].
    + rewrite (py_index_out _ _ H) in E. discriminate.
    + by rewrite length_insert.
Qed.

(** With every entry inside [-n, n) the assignment returns; position [q]
    is overwritten when [q] or [q - n] is an entry. *)
Lemma fancy_set_wrap {A} (l : list A) (idx : list Z) (v : A) :
  Forall (fun i => - Z.of_nat (length l) <= i < Z.of_nat (length l)) idx ->
  exists l', fancy_set l idx v = mret l' /\
    length l' = length l /\
    forall q : nat, (q < length l)%nat ->
      l' !! q = if decide (Z.of_nat q ∈ idx \/ Z.of_nat q - Z.of_nat (length l) ∈ idx)
                then Some v else l !! q.
Proof.
  revert l. induction idx as [|i idx IH]; intros l Hidx.
  - exists l. split_and!; [done..|]. intros q Hq.
    destruct (decide _) as [[H%elem_of_nil | H%elem_of_nil]|]; done.
  - apply Forall_cons in Hidx as [Hi Hidx]. simpl.
    set (p := if decide (0 <= i) then Z.to_nat i else Z.to_nat (i + Z.of_nat (length l))).
    assert (Hp : py_index (length l) i = inr p /\ (p < length l)%nat /\
                 (Z.of_nat p = i \/ Z.of_nat p - Z.of_nat (length l) = i)).
    { unfold p. destruct (decide (0 <= i)).
      - rewrite py_index_in_range by lia. split_and!; [done | lia | lia].
      - rewrite py_index_wrap by lia. split_and!; [done | lia | lia]. }
    destruct Hp as (-> & Hlt & Hpi).
    destruct (IH (<[p := v]> l)) as (l' & Hl' & Hlen & Hlook).
    { by rewrite length_insert. }
    rewrite length_insert in Hlen, Hlook.
    exists l'. split_and!; [done..|]. intros q Hq.
    rewrite (Hlook q Hq).
    destruct (decide (q = p)) as [-> | Hne].
    + rewrite list_lookup_insert_eq by done.
      rewrite (decide_True (P := _ ∈ i :: idx \/ _)).
      * by destruct (decide (_ \/ _)).
      * destruct Hpi as [Hpi | Hpi]; [left | right]; apply elem_of_cons; left; lia.
    + rewrite list_lookup_insert_ne by done.
      destruct (decide (Z.of_nat q ∈ idx \/ Z.of_nat q - Z.of_nat (length l) ∈ idx))
        as [Hin | Hnin].
      * rewrite decide_True; [done|].
        destruct Hin as [Hin | Hin]; [left | right]; apply elem_of_cons; by right.
      * rewrite decide_False; [done|].
        intros [[Heq | Hin]%elem_of_cons | [Heq | Hin]%elem_of_cons]; try tauto; lia.
Qed.

Lemma fancy_set_returns {A} (l : list A) (idx : list Z) (v : A) (tr : list op)
    (l' : list A) :
  fancy_set l idx v = Comp tr (inr l') ->
  Forall (fun i => - Z.of_nat (length l) <= i < Z.of_nat (length l)) idx.
Proof.
  intros H. apply Forall_forall. intros i Hi.
  destruct (decide (- Z.of_nat (length l) <= i < Z.of_nat (length l))) as [|Hout]; [done|].
  rewrite fancy_set_out_of_range in H; [discriminate|].
  apply Exists_exists. exists i. split; [done | lia].
Qed.

(** X6. A table without a [Start] or an [End] column is rejected with
    [AssertionError]. *)
Theorem get_bool_vector_missing_column (data : list f64) (sf : Q) (sp : DataFrame) :
  df_lookup sp "Start" = None \/ df_lookup sp "End" = None ->
  get_bool_vector data sf sp = Comp [] (inl AssertionError).
Proof.
  intros H. unfold get_bool_vector.
  destruct (df_lookup sp "Start") as [s|] eqn:Es.
  - destruct H as [H | ->]; [done | reflexivity].
  - reflexivity.
Qed.

Lemma get_bool_vector_missing_column_example :
  get_bool_vector [Fin 0; Fin 0] 100 [("Start", ColQ [0%Q]); ("Duration", ColQ [1%Q])]
  = Comp [] (inl AssertionError).
Proof. apply get_bool_vector_missing_column. right. reflexivity. Defined.

Lemma get_bool_vector_columns (data : list f64) (sf : Q) (sp : DataFrame)
    (starts ends : list Q) :
  df_lookup sp "Start" = Some (ColQ starts) ->
  df_lookup sp "End" = Some (ColQ ends) ->
  get_bool_vector data sf sp
  = fancy_set (replicate (length data) 0) (event_indices sf starts ends) 1.
Proof.
  intros Hs He. unfold get_bool_vector. rewrite Hs, He.
  rewrite !bool_decide_eq_true_2 by (by eexists).
  change (assert true) with (@mret comp _ _ ()). by rewrite !bind_ret_l.
Qed.



(** X8. Whenever [get_bool_vector] returns, the table has numeric [Start] and
    [End] columns, no array operation of the library was needed, the
    mask is as long as the signal, every event index lies in [-n, n), and
    sample [q] holds 1 if [q] or [q - n] is an event index and 0
    otherwise: a negative index marks a sample counted from the end. *)
Theorem get_bool_vector_returns (data : list f64) (sf : Q) (sp : DataFrame)
    (tr : list op) (mask : list Z) :
  get_bool_vector data sf sp = Comp tr (inr mask) ->
  exists starts ends,
    df_lookup sp "Start" = Some (ColQ starts) /\
    df_lookup sp "End" = Some (ColQ ends) /\
    tr = [] /\
    length mask = length data /\
    Forall (fun i => - Z.of_nat (length data) <= i < Z.of_nat (length data))
           (event_indices sf starts ends) /\
    forall q : nat, (q < length data)%nat ->
      mask !! q =
      Some (if decide (Z.of_nat q ∈ event_indices sf starts ends \/
                       Z.of_nat q - Z.of_nat (length data) ∈ event_indices sf starts ends)
            then 1 else 0).
Proof.
  intros H.
  destruct (df_lookup sp "Start") as [[starts| |]|] eqn:Es;
    destruct (df_lookup sp "End") as [[ends| |]|] eqn:Ee;
    try (exfalso; unfold get_bool_vector in H; rewrite Es, Ee in H;
         cbv in H; discriminate).
  exists starts, ends.
  rewrite (get_bool_vector_columns _ _ _ _ _ Es Ee) in H.
  pose proof (fancy_set_returns _ _ _ _ _ H) as Hrange.
  destruct (fancy_set_wrap _ _ 1 Hrange) as (l' & Hl' & Hlen & Hlook).
  rewrite Hl' in H. apply mret_inv in H as [-> ->].
  rewrite length_replicate in Hrange, Hlen, Hlook.
  split_and!; [done..|]. intros q Hq. rewrite (Hlook q Hq).
  destruct (decide _); [done|]. by apply lookup_replicate_2.
Qed.

Lemma get_bool_vector_returns_example :
  exists mask,
    get_bool_vector (replicate 10 (Fin 0)) 10
      [("Start", ColQ [(-0.2)%Q]); ("End", ColQ [0.1%Q])] = Comp [] (inr mask) /\
    mask !! 9%nat = Some 1 /\ mask !! 5%nat = Some 0.
Proof.
  assert (E : exists mask,
            get_bool_vector (replicate 10 (Fin 0)) 10
              [("Start", ColQ [(-0.2)%Q]); ("End", ColQ [0.1%Q])] = Comp [] (inr mask)).
  { eexists. reflexivity. }
  destruct E as (mask & E). exists mask. split; [exact E|].
  destruct (get_bool_vector_returns _ _ _ _ _ E)
    as (starts & ends & Hs & He & _ & _ & _ & Hq).
  injection Hs as <-. injection He as <-.
  split; [exact (Hq 9%nat ltac:(rewrite length_replicate; lia))
         | exact (Hq 5%nat ltac:(rewrite length_replicate; lia))].
Defined.

(** ** What merging leaves behind *)

Lemma arange_Z_sorted (a b : Z) : StronglySorted Z.lt (arange_Z a b).
Proof.
  unfold arange_Z. generalize (Z.to_nat (b - a)) as n. generalize 0%nat as s.
  intros s n. revert s. induction n as [|n IH]; intros s; simpl; constructor; [apply IH|].
  apply Forall_forall. intros k Hk.
  apply list_elem_of_In, in_map_iff in Hk as (i & <- & Hi).
  apply in_seq in Hi. lia.
Qed.

Lemma gap_segments_sorted (index : list Z) (js : list nat) :
  StronglySorted Z.lt index -> StronglySorted lt js ->
  Forall (fun j => (S j < length index)%nat) js ->
  StronglySorted Z.lt
    (concat (map (fun j => arange_Z (nth j index 0 + 1) (nth (j + 1) index 0)) js)).
Proof.
  intros HS Hjs. induction Hjs as [|j js Hjs IH Hlt]; intros Hb; simpl; [constructor|].
  apply Forall_cons in Hb as [Hj Hb].
  apply StronglySorted_app_2; [|apply arange_Z_sorted | by apply IH].
  intros x1 x2 H1 H2. apply elem_of_arange_Z in H1.
  apply list_elem_of_In, in_concat in H2 as (l & Hl & H2).
  apply in_map_iff in Hl as (j' & <- & Hj').
  apply list_elem_of_In, elem_of_arange_Z in H2.
  apply list_elem_of_In in Hj'.
  rewrite Forall_forall in Hlt. specialize (Hlt j' Hj').
  rewrite Forall_forall in Hb. specialize (Hb j' Hj').
  destruct (lookup_lt_is_Some_2 index (j + 1)) as [b Hbv]; [lia|].
  destruct (lookup_lt_is_Some_2 index j') as [a' Ha']; [lia|].
  rewrite (nth_lookup_Some _ _ _ _ Hbv) in H1.
  rewrite (nth_lookup_Some _ _ _ _ Ha') in H2.
  assert (b <= a') by (eapply (StronglySorted_lookup_le index (j + 1) j'); eauto; lia).
  lia.
Qed.

Lemma gap_fill_sorted (index : list Z) (md : Q) :
  StronglySorted Z.lt index -> StronglySorted Z.lt (gap_fill index md).
Proof.
  intros HS. unfold gap_fill, np_hstack, np_where.
  apply gap_segments_sorted; [done | apply where_from_sorted |].
  eapply Forall_impl; [apply where_from_bounds|]. simpl. intros j Hj.
  rewrite length_map, np_diff_length in Hj. lia.
Qed.

Lemma strictly_sorted_NoDup (l : list Z) : StronglySorted Z.lt l -> NoDup l.
Proof.
  induction 1 as [|a l _ IH Hall]; constructor; [|done].
  intros Hin. rewrite Forall_forall in Hall. specialize (Hall a Hin). lia.
Qed.

Lemma strictly_sorted_le (l : list Z) : StronglySorted Z.lt l -> Sorted Z.le l.
Proof.
  intros H. apply StronglySorted_Sorted.
  induction H as [|a l _ IH Hall]; constructor; [done|].
  eapply Forall_impl; [exact Hall|]. simpl. lia.
Qed.

Lemma sorted_NoDup_strict (l : list Z) :
  Sorted Z.le l -> NoDup l -> StronglySorted Z.lt l.
Proof.
  intros H. apply (Sorted_StronglySorted Z.le) in H.
  induction H as [|a l _ IH Hall]; intros Hnd; constructor.
  - apply IH. by apply NoDup_cons in Hnd as [_ ?].
  - apply NoDup_cons in Hnd as [Hnotin _].
    apply Forall_forall. intros x Hx. rewrite Forall_forall in Hall.
    specialize (Hall x Hx). assert (x <> a) by (by intros ->). lia.
Qed.

Lemma events_distance_fill_strict (index : list Z) (ms sf : Q) :
  StronglySorted Z.lt index ->
  StronglySorted Z.lt (_events_distance_fill index ms sf).
Proof.
  intros HS. apply sorted_NoDup_strict.
  - by apply events_distance_fill_Sorted, strictly_sorted_le.
  - rewrite (events_distance_fill_perm index ms sf). apply NoDup_app. split_and!.
    + by apply strictly_sorted_NoDup.
    + intros x Hx (a & b & Hab & Hk & _)%elem_of_gap_fill.
      by eapply strictly_sorted_gap_empty.
    + by apply strictly_sorted_NoDup, gap_fill_sorted.
Qed.

Lemma consecutive_elem_of (l : list Z) (a b : Z) :
  consecutive l a b -> a ∈ l /\ b ∈ l.
Proof. intros (j & Ha & Hb). split; by eapply list_elem_of_lookup_2. Qed.

Lemma consecutive_lt (l : list Z) (a b : Z) :
  StronglySorted Z.lt l -> consecutive l a b -> a < b.
Proof.
  intros HS (j & Ha & Hb). eapply (StronglySorted_lookup_lt l j (S j)); eauto.
Qed.

(** Two elements of a strictly increasing array with no element of the
    array between them are neighbours. *)
Lemma neighbours_consecutive (l : list Z) (a b : Z) :
  StronglySorted Z.lt l -> a ∈ l -> b ∈ l -> a < b ->
  (forall c, c ∈ l -> ~ (a < c < b)) ->
  consecutive l a b.
Proof.
  intros HS (i & Hi)%list_elem_of_lookup (j & Hj)%list_elem_of_lookup Hab Hnone.
  assert (Hij : (i < j)%nat).
  { destruct (le_lt_dec j i) as [Hle|]; [|done].
    assert (b <= a) by (eapply (StronglySorted_lookup_le l j i); eauto). lia. }
  destruct (decide (j = S i)) as [-> | Hne]; [by exists i|].
  destruct (lookup_lt_is_Some_2 l (S i)) as [c Hc].
  { apply lookup_lt_Some in Hj. lia. }
  exfalso. apply (Hnone c); [by eapply list_elem_of_lookup_2|]. split.
  - eapply (StronglySorted_lookup_lt l i (S i)); eauto.
  - eapply (StronglySorted_lookup_lt l (S i) j); eauto. lia.
Qed.

(** The array is returned as it is when no gap is short. *)
Lemma events_distance_fill_id (index : list Z) (ms sf : Q) :
  (forall a b, consecutive index a b ->
     b - a <= 1 \/ (min_distance_samples ms sf <= inject_Z (b - a))%Q) ->
  _events_distance_fill index ms sf = index.
Proof.
  intros H. rewrite events_distance_fill_unfold. cbv zeta.
  unfold np_where. rewrite where_from_all_false; [done|].
  apply Forall_forall. intros m (d & -> & Hd)%list_elem_of_fmap.
  apply list_elem_of_lookup in Hd as (j & Hd).
  apply np_diff_lookup in Hd as (a & b & Ha & Hb & ->).
  destruct (H a b) as [Hle | Hge]; [by exists j | |].
  - apply andb_false_iff. left. apply Z.ltb_ge. lia.
  - apply andb_false_iff. right.
    destruct (Qltb _ _) eqn:E; [|done].
    apply Qltb_spec in E. exfalso. eapply Qlt_not_le; eauto.
Qed.

(** After the merge, two neighbouring indices are adjacent or at least
    the minimum distance apart. *)
Lemma events_distance_fill_gaps (index : list Z) (ms sf : Q) (a b : Z) :
  StronglySorted Z.lt index ->
  consecutive (_events_distance_fill index ms sf) a b ->
  b = a + 1 \/ (min_distance_samples ms sf <= inject_Z (b - a))%Q.
Proof.
  intros HS Hc.
  pose proof (events_distance_fill_strict index ms sf HS) as HSo.
  pose proof (consecutive_lt _ _ _ HSo Hc) as Hab.
  destruct (consecutive_elem_of _ _ _ Hc) as [Hao Hbo].
  assert (Hnone : forall k, a < k < b -> k ∉ _events_distance_fill index ms sf).
  { intros k Hk. by eapply strictly_sorted_gap_empty. }
  destruct (decide (b = a + 1)) as [|Hne]; [by left | right].
  assert (Ha : a ∈ index).
  { apply elem_of_events_distance_fill in Hao as [|(a' & b' & Hc' & Hk & Hmd)]; [done|].
    exfalso. apply (Hnone (a + 1)); [lia|].
    apply elem_of_events_distance_fill.
    destruct (decide (a + 1 = b')) as [-> | Hne'].
    - left. by apply consecutive_elem_of in Hc' as [_ ?].
    - right. exists a', b'. split_and!; [done | lia.. | done]. }
  assert (Hb : b ∈ index).
  { apply elem_of_events_distance_fill in Hbo as [|(a' & b' & Hc' & Hk & Hmd)]; [done|].
    exfalso. apply (Hnone (b - 1)); [lia|].
    apply elem_of_events_distance_fill.
    destruct (decide (b - 1 = a')) as [-> | Hne'].
    - left. by apply consecutive_elem_of in Hc' as [? _].
    - right. exists a', b'. split_and!; [done | lia.. | done]. }
  assert (Hci : consecutive index a b).
  { apply neighbours_consecutive; [done..|]. intros c Hcin Hcab.
    apply (Hnone c Hcab). apply elem_of_events_distance_fill. by left. }
  apply Qnot_lt_le. intros Hshort.
  apply (Hnone (a + 1)); [lia|].
  apply elem_of_events_distance_fill. right. exists a, b. split_and!; [done | lia.. | done].
Qed.

(** X9. Merging keeps a strictly increasing array strictly increasing, and
    any two neighbouring indices of its result are either adjacent or at
    least [min_distance_ms / 1000 * sf] apart: no short gap is left. *)
Theorem events_distance_fill_min_gap (index : list Z) (min_distance_ms sf : Q) :
  StronglySorted Z.lt index ->
  let out := _events_distance_fill index min_distance_ms sf in
  StronglySorted Z.lt out /\
  forall a b, consecutive out a b ->
    b = a + 1 \/ (min_distance_samples min_distance_ms sf <= inject_Z (b - a))%Q.
Proof.
  intros HS out. split.
  - by apply events_distance_fill_strict.
  - intros a b Hc. by eapply events_distance_fill_gaps.
Qed.

Lemma events_distance_fill_min_gap_example :
  StronglySorted Z.lt [3; 4; 5; 54; 55; 105; 106] /\
  forall a b, consecutive (_events_distance_fill [3; 4; 5; 54; 55; 105; 106] 500 100) a b ->
    b = a + 1 \/ (50 <= inject_Z (b - a))%Q.
Proof.
  assert (HS : StronglySorted Z.lt [3; 4; 5; 54; 55; 105; 106]).
  { repeat first [apply SSorted_nil | apply SSorted_cons | apply List.Forall_nil
                  | apply List.Forall_cons; [lia|]]. }
  split; [exact HS|]. intros a b Hc.
  destruct (events_distance_fill_min_gap [3; 4; 5; 54; 55; 105; 106] 500 100 HS)
    as [_ H].
  destruct (H a b Hc) as [? | Hge]; [by left | right].
  assert (E : (min_distance_samples 500 100 == 50)%Q) by reflexivity.
  by rewrite <- E.
Defined.

(** X10. Merging twice is merging once. *)
Theorem events_distance_fill_idempotent (index : list Z) (min_distance_ms sf : Q) :
  StronglySorted Z.lt index ->
  _events_distance_fill (_events_distance_fill index min_distance_ms sf)
                        min_distance_ms sf
  = _events_distance_fill index min_distance_ms sf.
Proof.
  intros HS. apply events_distance_fill_id. intros a b Hc.
  destruct (events_distance_fill_gaps index min_distance_ms sf a b HS Hc) as [-> | ?].
  - left. lia.
  - by right.
Qed.

Lemma events_distance_fill_idempotent_example :
  _events_distance_fill (_events_distance_fill [3; 4; 5; 54; 55; 105; 106] 500 100) 500 100
  = _events_distance_fill [3; 4; 5; 54; 55; 105; 106] 500 100.
Proof.
  apply events_distance_fill_idempotent.
  repeat first [apply SSorted_nil | apply SSorted_cons | apply List.Forall_nil
                | apply List.Forall_cons; [lia|]].
Defined.



(** ** Runs *)

Lemma slice_lookup {A} (l : list A) (p q j : nat) (a : A) :
  slice l p q !! j = Some a <-> l !! (p + j)%nat = Some a /\ (p + j < q)%nat.
Proof.
  unfold slice. rewrite lookup_take_Some, lookup_drop.
  split; intros [? ?]; split; [done | lia | done | lia].
Qed.

Lemma drop_slice {A} (l : list A) (p : nat) : drop p l = slice l p (length l).
Proof. unfold slice. rewrite take_ge; [done|]. rewrite length_drop. lia. Qed.

Lemma slice_head {A} (l : list A) (p q : nat) :
  (p < q)%nat -> head (slice l p q) = l !! p.
Proof.
  intros H. rewrite head_lookup. apply option_eq. intros a.
  rewrite slice_lookup, Nat.add_0_r.
  split; [by intros [? _] | intros ?; split; [done | lia]].
Qed.

Lemma slice_last {A} (l : list A) (p q : nat) :
  (p < q <= length l)%nat -> last (slice l p q) = l !! (q - 1)%nat.
Proof.
  intros H. rewrite last_lookup. apply option_eq. intros a.
  assert (Hlen : length (slice l p q) = (q - p)%nat).
  { unfold slice. rewrite length_take, length_drop. lia. }
  rewrite Hlen, slice_lookup.
  replace (p + Init.Nat.pred (q - p))%nat with (q - 1)%nat by lia.
  split; [by intros [? _] | intros ?; split; [done | lia]].
Qed.

Lemma split_from_concat {A} (l : list A) (prev : nat) (cuts : list nat) :
  StronglySorted lt (prev :: cuts) ->
  concat (split_from l prev cuts) = drop prev l.
Proof.
  revert prev. induction cuts as [|c cs IH]; intros prev HS; simpl.
  - by rewrite app_nil_r.
  - apply StronglySorted_inv in HS as [HS Hlt]. apply Forall_cons in Hlt as [Hpc _].
    rewrite IH by done. unfold slice.
    replace (drop c l) with (drop (c - prev) (drop prev l)).
    + apply take_drop.
    + rewrite drop_drop. f_equal. lia.
Qed.

(** Every piece of a split is a slice between two successive cuts. *)
Lemma split_from_pieces {A} (l : list A) (prev : nat) (cuts : list nat) (k : list A) :
  StronglySorted lt (prev :: cuts) ->
  k ∈ split_from l prev cuts ->
  exists p q, k = slice l p q /\ (prev <= p)%nat /\
              forall c, c ∈ cuts -> (c <= p \/ q <= c)%nat.
Proof.
  revert prev. induction cuts as [|c0 cs IH]; intros prev HS Hk; simpl in Hk.
  - apply list_elem_of_singleton in Hk as ->. exists prev, (length l).
    split_and!; [apply drop_slice | done |]. intros c Hc. by apply elem_of_nil in Hc.
  - apply StronglySorted_inv in HS as [HS Hlt]. apply Forall_cons in Hlt as [Hpc Hrest].
    apply elem_of_cons in Hk as [-> | Hk].
    + exists prev, c0. split_and!; [done..|].
      intros c [-> | Hc]%elem_of_cons; [right; lia|].
      apply StronglySorted_inv in HS as [_ Hac]. rewrite Forall_forall in Hac.
      specialize (Hac c Hc). lia.
    + destruct (IH c0 HS Hk) as (p & q & -> & Hp & Hcuts). exists p, q.
      split_and!; [done | lia |].
      intros c [-> | Hc]%elem_of_cons; [left; lia | by apply Hcuts].
Qed.

(** Two successive pieces meet at a cut. *)
Lemma split_from_boundary {A} (l : list A) (prev : nat) (cuts : list nat) (i : nat)
    (k1 k2 : list A) :
  StronglySorted lt (prev :: cuts) ->
  Forall (fun c => (c < length l)%nat) cuts ->
  split_from l prev cuts !! i = Some k1 ->
  split_from l prev cuts !! S i = Some k2 ->
  exists c, c ∈ cuts /\ (0 < c)%nat /\ last k1 = l !! (c - 1)%nat /\ head k2 = l !! c.
Proof.
  revert prev i. induction cuts as [|c cs IH]; intros prev i HS Hlen H1 H2;
    simpl in H1, H2; [done|].
  apply StronglySorted_inv in HS as [HS Hlt]. apply Forall_cons in Hlt as [Hpc _].
  apply Forall_cons in Hlen as [Hc Hcs].
  destruct i as [|i]; simpl in H1, H2.
  - injection H1 as <-. exists c. split_and!; [by left | lia | |].
    + apply slice_last. lia.
    + destruct cs as [|c' cs']; simpl in H2; injection H2 as <-.
      * by rewrite head_lookup, lookup_drop, Nat.add_0_r.
      * apply slice_head. apply StronglySorted_inv in HS as [_ Hcc].
        by apply Forall_cons in Hcc as [? _].
  - destruct (IH c i HS Hcs H1 H2) as (c0 & Hc0 & ?). exists c0. split; [by right | done].
Qed.

(** The cuts of [split_runs]: one after every position whose successor
    is not the next integer. *)
Lemma split_runs_cuts_sorted (m : list bool) :
  StronglySorted lt (0%nat :: map (fun p => (p + 1)%nat) (where_from 0 m)).
Proof.
  constructor.
  - pose proof (where_from_sorted 0 m) as Hs.
    induction Hs as [|p ps Hs IH Hp]; simpl; constructor; [done|].
    apply List.Forall_map. eapply Forall_impl; [exact Hp|]. simpl. lia.
  - apply List.Forall_map. apply Forall_forall. intros p _. lia.
Qed.

Lemma split_runs_cut (l : list Z) (c : nat) :
  c ∈ map (fun p => (p + 1)%nat) (np_where (map (fun d => negb (d =? 1)) (np_diff l))) <->
  exists a b, (0 < c)%nat /\ l !! (c - 1)%nat = Some a /\ l !! c = Some b /\ b - a <> 1.
Proof.
  unfold np_where. change (map ?f ?l) with (f <$> l).
  rewrite list_elem_of_fmap. split.
  - intros (p & -> & Hp). apply elem_of_where_from in Hp as (p' & -> & Hp). simpl in Hp.
    rewrite list_lookup_fmap in Hp.
    destruct (np_diff l !! p') as [d|] eqn:Hd; simpl in Hp; [|done].
    apply np_diff_lookup in Hd as (a & b & Ha & Hb & ->).
    injection Hp as Hp. apply negb_true_iff, Z.eqb_neq in Hp.
    exists a, b. change (0 + p')%nat with p'.
    replace (p' + 1 - 1)%nat with p' by lia. rewrite Nat.add_1_r.
    split_and!; [lia | done..].
  - intros (a & b & Hc & Ha & Hb & Hd). exists (c - 1)%nat. split; [lia|].
    apply elem_of_where_from. exists (c - 1)%nat. split; [done|].
    rewrite list_lookup_fmap.
    assert (np_diff l !! (c - 1)%nat = Some (b - a)) as ->.
    { apply np_diff_lookup. exists a, b. split_and!; [done | | done].
      by replace (S (c - 1)) with c by lia. }
    simpl. f_equal. by apply negb_true_iff, Z.eqb_neq.
Qed.

Lemma split_runs_concat (l : list Z) : concat (split_runs l) = l.
Proof.
  unfold split_runs, np_split, np_where.
  rewrite split_from_concat; [done | apply split_runs_cuts_sorted].
Qed.

Lemma split_runs_contiguous (l k : list Z) : k ∈ split_runs l -> contiguous k.
Proof.
  unfold split_runs, np_split. intros Hk.
  apply split_from_pieces in Hk as (p & q & -> & _ & Hcuts);
    [|apply split_runs_cuts_sorted].
  intros a b (j & Ha & Hb). apply slice_lookup in Ha as [Ha _].
  apply slice_lookup in Hb as [Hb Hq].
  destruct (decide (b - a = 1)) as [|Hne]; [lia|]. exfalso.
  destruct (Hcuts (p + S j)%nat); [|lia..].
  apply split_runs_cut. exists a, b.
  replace (p + S j - 1)%nat with (p + j)%nat by lia. split_and!; [lia | done..].
Qed.

Lemma split_runs_boundary (l : list Z) (i : nat) (k1 k2 : list Z) :
  split_runs l !! i = Some k1 -> split_runs l !! S i = Some k2 ->
  exists a b, last k1 = Some a /\ head k2 = Some b /\ consecutive l a b /\ b - a <> 1.
Proof.
  unfold split_runs, np_split. intros H1 H2.
  assert (Hlen : Forall (fun c => (c < length l)%nat)
            (map (fun p => (p + 1)%nat)
                 (np_where (map (fun d => negb (d =? 1)) (np_diff l))))).
  { apply List.Forall_map. eapply Forall_impl; [apply where_from_bounds|]. simpl.
    intros p Hp. rewrite length_map, np_diff_length in Hp. lia. }
  destruct (split_from_boundary _ _ _ _ _ _ (split_runs_cuts_sorted _) Hlen H1 H2)
    as (c & Hc & _ & Hl & Hh).
  apply split_runs_cut in Hc as (a & b & Hpos & Ha & Hb & Hd).
  exists a, b. rewrite Hl, Hh. split_and!; [done.. | | done].
  exists (c - 1)%nat. split; [done|]. by replace (S (c - 1)) with c by lia.
Qed.




(** X12. [split_runs] cuts the array into pieces that give the array back when
    concatenated; within a piece neighbouring indices differ by one, and
    where one piece ends and the next begins they do not.  The pieces of
    a non-empty array are non-empty. *)
Theorem split_runs_partition (l : list Z) :
  concat (split_runs l) = l /\
  Forall contiguous (split_runs l) /\
  (l <> [] -> Forall (fun k => k <> []) (split_runs l)) /\
  (forall i k1 k2, split_runs l !! i = Some k1 -> split_runs l !! S i = Some k2 ->
     exists a b, last k1 = Some a /\ head k2 = Some b /\ consecutive l a b /\ b - a <> 1).
Proof.
  split_and!.
  - apply split_runs_concat.
  - apply Forall_forall. intros k. apply split_runs_contiguous.
  - apply split_runs_nonempty.
  - apply split_runs_boundary.
Qed.

(** ** The runs of the detector *)

Lemma merge_events_strict (md : option Q) (sf : Q) (w : list Z) :
  StronglySorted Z.lt w -> StronglySorted Z.lt (merge_events md sf w).
Proof.
  intros HS. unfold merge_events. destruct md as [md|]; [|done].
  destruct (Qltb 0 md); [|done]. by apply events_distance_fill_strict.
Qed.

Lemma candidates_bounds (idx_sum : list Z) :
  Forall (fun p => 0 <= p < Z.of_nat (length idx_sum)) (candidates idx_sum).
Proof.
  unfold candidates, np_where. apply List.Forall_map.
  eapply Forall_impl; [apply where_from_bounds|]. simpl. intros p Hp.
  rewrite length_map in Hp. lia.
Qed.

Lemma merge_events_bounds (md : option Q) (sf : Q) (w : list Z) (lo hi : Z) :
  Forall (fun p => lo <= p < hi) w -> Forall (fun p => lo <= p < hi) (merge_events md sf w).
Proof.
  intros Hw. unfold merge_events. destruct md as [md|]; [|done].
  destruct (Qltb 0 md); [|done].
  apply Forall_forall. intros p Hp. rewrite Forall_forall in Hw.
  apply elem_of_events_distance_fill in Hp as [Hp | (a & b & Hc & Hk & _)]; [by apply Hw|].
  apply consecutive_elem_of in Hc as [Ha Hb].
  specialize (Hw a Ha) as Ha'. specialize (Hw b Hb) as Hb'. lia.
Qed.

Lemma elem_of_split_runs (l k : list Z) (p : Z) :
  k ∈ split_runs l -> p ∈ k -> p ∈ l.
Proof.
  intros Hk Hp. rewrite <- (split_runs_concat l).
  apply list_elem_of_In, in_concat. exists k. by rewrite <- !list_elem_of_In.
Qed.



(** X14. Two successive runs are separated by at least one sample that is in
    neither, and, when merging is on, the first index of the later run is
    at least [min_distance / 1000 * sf] samples after the last index of
    the earlier one. *)
Theorem merged_runs_separated (min_distance : option Q) (sf : Q) (idx_sum : list Z)
    (i : nat) (k1 k2 : list Z) :
  merged_runs min_distance sf idx_sum !! i = Some k1 ->
  merged_runs min_distance sf idx_sum !! S i = Some k2 ->
  exists a b, last k1 = Some a /\ head k2 = Some b /\ 1 < b - a /\
    (forall md, min_distance = Some md -> (0 < md)%Q ->
       (md / 1000 * sf <= inject_Z (b - a))%Q).
Proof.
  intros H1 H2. unfold merged_runs in H1, H2.
  destruct (split_runs_boundary _ _ _ _ H1 H2) as (a & b & Hl & Hh & Hc & Hd).
  exists a, b. split_and!; [done.. | |].
  - pose proof (merge_events_strict min_distance sf _ (candidates_strictly_sorted idx_sum))
      as HS.
    pose proof (consecutive_lt _ _ _ HS Hc). lia.
  - intros md -> Hmd. unfold merge_events in Hc.
    apply Qltb_spec in Hmd. rewrite Hmd in Hc.
    destruct (events_distance_fill_gaps _ _ _ _ _ (candidates_strictly_sorted idx_sum) Hc)
      as [-> | Hge]; [lia | done].
Qed.

Lemma merged_runs_separated_example :
  merged_runs default_min_distance 100 two_run_votes = [[0; 1; 2]; [63; 64; 65]] /\
  exists a b, last [0; 1; 2] = Some a /\ head [63; 64; 65] = Some b /\
    (500 / 1000 * 100 <= inject_Z (b - a))%Q.
Proof.
  assert (E : merged_runs default_min_distance 100 two_run_votes
              = [[0; 1; 2]; [63; 64; 65]]) by (by vm_compute).
  split; [exact E|].
  destruct (merged_runs_separated default_min_distance 100 two_run_votes 0
              [0; 1; 2] [63; 64; 65]) as (a & b & Ha & Hb & _ & H).
  - by rewrite E.
  - by rewrite E.
  - exists a, b. split_and!; [done..|]. by apply H.
Defined.

(** ** The table of events *)

Lemma for_each_length {A B} (f : A -> comp B) (l : list A) (tr : list op) (bs : list B) :
  for_each f l = Comp tr (inr bs) -> length bs = length l.
Proof.
  revert tr bs. induction l as [|a l IH]; intros tr bs H; simpl in H.
  - by apply mret_inv in H as [_ <-].
  - inv_bind H as b. inv_bind H as bs'. apply mret_inv in H as [_ <-].
    simpl. f_equal. by eapply IH.
Qed.

Lemma mask_select_length {A B} (g : B -> bool) (l : list A) (runs : list B) :
  length l = length runs ->
  length (mask_select l (map g runs)) = length (List.filter g runs).
Proof.
  revert l. induction runs as [|r runs IH]; intros [|a l] Hlen; simpl in *; try done.
  destruct (g r); simpl; rewrite IH; lia.
Qed.

Lemma filter_nonempty {A} (g : A -> bool) (l : list A) :
  forallb negb (map g l) = false -> (0 < length (List.filter g l))%nat.
Proof.
  induction l as [|a l IH]; simpl; [done|].
  destruct (g a); simpl; [lia | done].
Qed.

Lemma candidates_empty (idx_sum : list Z) :
  candidates idx_sum = [] -> Forall (fun v => v < 3) idx_sum.
Proof.
  unfold candidates, np_where. generalize 0%nat as i.
  induction idx_sum as [|v l IH]; intros i H; [constructor|].
  simpl in H. destruct (3 <=? v) eqn:E; [done|].
  apply Z.leb_gt in E. constructor; [done | by eapply IH].
Qed.

Section TableFacts.

Context (lib : numlib).

(** X15. A table returned by [detect_events] has the eleven columns of the
    source, in its order; every column has as many rows as there are
    runs of good duration, and there is at least one row. *)
Theorem detect_events_table (ms : measures) (idx_sum : list Z) (duration : Q * Q)
    (min_distance : option Q) (tr : list op) (df : DataFrame) :
  detect_events lib ms idx_sum duration min_distance = Comp tr (inr (Some df)) ->
  let kept := List.filter (good_run duration (ms_sf ms))
                          (merged_runs min_distance (ms_sf ms) idx_sum) in
  column_names df = ["Start"; "End"; "Duration"; "Amplitude"; "RMS"; "AbsPower";
                     "RelPower"; "Frequency"; "Oscillations"; "Symmetry";
                     "Confidence"] /\
  (0 < length kept)%nat /\
  Forall (fun kc => column_length kc.2 = length kept) df.
Proof.
  intros H kept. rewrite detect_events_unfold in H. cbv zeta in H.
  destruct (length (candidates idx_sum) =? 0)%nat; [discriminate|].
  destruct (forallb negb _) eqn:Hgood; [discriminate|].
  inv_bind H as fts. apply mret_inv in H as [_ H]. injection H as <-.
  apply for_each_length in Hstep. rewrite length_zip, length_map, Nat.min_id in Hstep.
  split_and!; [done | by apply filter_nonempty |].
  unfold events_table, df_filter. cbn [map fst snd].
  apply Forall_forall. intros kc Hkc.
  repeat (apply elem_of_cons in Hkc as [-> | Hkc]);
    [.. | by apply elem_of_nil in Hkc];
    cbn [snd column_length]; apply mask_select_length; by rewrite length_map.
Qed.

(** X16. [detect_events] returns [None] only after printing its message, and
    only when no sample has a vote of at least 3 or no run has a good
    duration. *)
Theorem detect_events_none_only (ms : measures) (idx_sum : list Z) (duration : Q * Q)
    (min_distance : option Q) (tr : list op) :
  detect_events lib ms idx_sum duration min_distance = Comp tr (inr None) ->
  tr = [OpPrint no_spindle_msg] /\
  (Forall (fun v => v < 3) idx_sum \/
   Forall (fun k => good_run duration (ms_sf ms) k = false)
          (merged_runs min_distance (ms_sf ms) idx_sum)).
Proof.
  rewrite detect_events_unfold. cbv zeta. intros H.
  destruct (length (candidates idx_sum) =? 0)%nat eqn:E.
  - injection H as <-. split; [done|]. left. apply candidates_empty.
    apply Nat.eqb_eq in E. by destruct (candidates idx_sum).
  - destruct (forallb negb _) eqn:Hgood.
    + injection H as <-. split; [done|]. right. by apply forallb_negb_map.
    + inv_bind H as fts. by apply mret_inv in H as [_ H].
Qed.

End TableFacts.

Lemma detect_events_table_example :
  exists tr df,
    detect_events stub_lib demo_measures demo_votes default_duration
      default_min_distance = Comp tr (inr (Some df)) /\
    Forall (fun kc => column_length kc.2 = 1%nat) df.
Proof.
  destruct demo_run_features as (tr & ft & Hft).
  assert (E : exists tr df,
            detect_events stub_lib demo_measures demo_votes default_duration
              default_min_distance = Comp tr (inr (Some df))).
  { eexists _, _. rewrite detect_events_unfold. cbv zeta.
    rewrite demo_merged_runs.
    change (length (candidates demo_votes) =? 0)%nat with false.
    change (map (good_run default_duration (ms_sf demo_measures)) [demo_run])
      with [true].
    cbn [forallb negb andb zip zip_with for_each fst snd].
    rewrite Hft. reflexivity. }
  destruct E as (tr' & df & E). exists tr', df. split; [exact E|].
  destruct (detect_events_table stub_lib _ _ _ _ _ _ E) as (_ & _ & H).
  rewrite demo_merged_runs in H. exact H.
Defined.

Lemma detect_events_none_only_example :
  detect_events failing_lib demo_measures [0; 1; 2] default_duration
    default_min_distance = Comp [OpPrint no_spindle_msg] (inr None) /\
  Forall (fun v => v < 3) [0; 1; 2].
Proof.
  assert (E : detect_events failing_lib demo_measures [0; 1; 2] default_duration
                default_min_distance = Comp [OpPrint no_spindle_msg] (inr None))
    by reflexivity.
  split; [exact E|].
  destruct (detect_events_none_only failing_lib _ _ _ _ _ E) as [_ [H | H]]; [exact H|].
  repeat constructor.
Defined.

(** ** Traces and successful runs *)

Lemma assert_trace (b : bool) : trace (assert b) = [].
Proof. by destruct b. Qed.

Lemma py_div_trace (a b : Q) : trace (py_div a b) = [].
Proof. unfold py_div. by destruct (Qeq_bool b 0). Qed.

Lemma bind_trace_nil {A B} (m : comp A) (f : A -> comp B) :
  trace m = [] -> (forall a, trace (f a) = []) -> trace (m ≫= f) = [].
Proof.
  intros Hm Hf. rewrite bind_trace, Hm. destruct (outcome m); simpl; [done | apply Hf].
Qed.

(** A computation without recorded operation that is followed by a
    successful computation returned. *)
Lemma bind_nil_inv {A B} (m : comp A) (f : A -> comp B) (tr : list op) (b : B) :
  trace m = [] -> (m ≫= f) = Comp tr (inr b) ->
  exists a, m = mret a /\ f a = Comp tr (inr b).
Proof.
  intros Hm H. apply bind_inr_inv in H as (tr1 & a & tr2 & H1 & H2 & ->).
  rewrite H1 in Hm. simpl in Hm. subst tr1. by exists a.
Qed.

Lemma assert_inv (b : bool) (u : unit) : assert b = mret u -> b = true.
Proof. by destruct b. Qed.

Lemma py_div_inv (a b q : Q) : py_div a b = mret q -> ~ (b == 0)%Q /\ q = (a / b)%Q.
Proof.
  unfold py_div. destruct (Qeq_bool b 0) eqn:E; [done|]. intros [= <-].
  split; [|done]. intros H. apply Qeq_bool_iff in H. congruence.
Qed.

Lemma for_each_trace_nil {A B} (f : A -> comp B) (l : list A) :
  (forall a, trace (f a) = []) -> trace (for_each f l) = [].
Proof.
  intros Hf. induction l as [|a l IH]; [done|]. simpl.
  apply bind_trace_nil; [done|]. intros b. apply bind_trace_nil; [done|]. done.
Qed.

Section SuccessfulRuns.

Context (lib : numlib).

Lemma jit_div_trace (a b : f64) : trace (jit_div lib a b) = [].
Proof.
  unfold jit_div. destruct (jit_error_model lib); [|done].
  by destruct (f64_eqb b (Fin 0)).
Qed.

Lemma corr_trace (x y : list f64) : trace (_corr lib x y) = [].
Proof.
  unfold _corr, jit_mean. apply bind_trace_nil; [apply jit_div_trace|]. intros mx.
  apply bind_trace_nil; [apply jit_div_trace|]. intros my. apply jit_div_trace.
Qed.

Lemma covar_trace (x y : list f64) : trace (_covar lib x y) = [].
Proof.
  unfold _covar, jit_mean. cbv zeta.
  apply bind_trace_nil; [apply jit_div_trace|]. intros mx.
  apply bind_trace_nil; [apply jit_div_trace|]. intros my. apply jit_div_trace.
Qed.

Lemma rms_trace (x : list f64) : trace (_rms lib x) = [].
Proof. unfold _rms, jit_mean. apply bind_trace_nil; [apply jit_div_trace | done]. Qed.

Lemma window_value_trace (x : list f64) (y : option (list f64)) (method : string)
    (be : Z * Z) :
  trace (window_value lib x y method be) = [].
Proof.
  unfold window_value. destruct (string_in method ["covar"; "corr"]).
  - destruct y as [y'|]; [|done].
    destruct (method =? "covar")%string; [apply covar_trace | apply corr_trace].
  - apply rms_trace.
Qed.

Lemma window_loop_trace (x : list f64) (y : option (list f64)) (method : string)
    (beg end_ : list Z) :
  trace (window_loop lib x y method beg end_) = [].
Proof. apply for_each_trace_nil. intros be. apply window_value_trace. Qed.

(** What a successful call of [moving_transform] did. *)
Lemma moving_transform_returns (x : list f64) (y : option (list f64))
    (sf window step : Q) (method : string) (interp : bool) (tr : list op)
    (t : list Q) (out : list f64) :
  moving_transform lib x y sf window step method interp = Comp tr (inr (t, out)) ->
  let step' := if Qeq_bool step 0 then (1 / sf)%Q else step in
  let idx := arange 0 (inject_Z (Z.of_nat (length x)) / sf) step' in
  let beg := window_beg sf (window / 2) idx in
  let end_ := window_end sf (window / 2) (Z.of_nat (length x) - 1) idx in
  method ∈ ["covar"; "corr"; "rms"] /\
  (forall y', y = Some y' -> length x = length y') /\
  ~ (sf == 0)%Q /\
  exists vals,
    window_loop lib x y method beg end_ = mret vals /\
    if interp && negb (Qeq_bool step' (1 / sf)) then
      tr = [OpMoving method; OpInterp1d] /\
      t = sample_times (length x) sf /\
      interp1d lib (window_times sf beg end_) vals (sample_times (length x) sf) = inr out
    else
      tr = [OpMoving method] /\ t = window_times sf beg end_ /\ out = vals.
Proof.
  intros H step' idx beg end_. unfold moving_transform in H.
  apply bind_nil_inv in H as (u1 & Hm & H); [|apply assert_trace].
  apply assert_inv in Hm. apply bool_decide_eq_true in Hm.
  apply bind_nil_inv in H as (u2 & Hy & H).
  2: { destruct y; [apply assert_trace | done]. }
  assert (Hy' : forall y', y = Some y' -> length x = length y').
  { intros y' ->. apply assert_inv in Hy. by apply Nat.eqb_eq in Hy. }
  apply bind_nil_inv in H as (s & Hs & H).
  2: { destruct (Qeq_bool step 0); [apply py_div_trace | done]. }
  assert (s = step') as ->.
  { unfold step'. destruct (Qeq_bool step 0).
    - by apply py_div_inv in Hs as [_ ->].
    - by injection Hs as <-. }
  cbv zeta in H.
  apply bind_nil_inv in H as (total & Htot & H); [|apply py_div_trace].
  apply py_div_inv in Htot as [Hsf ->]. fold idx beg end_ in H.
  apply bind_inr_inv in H as (tr1 & u3 & tr2 & Htick & H & ->).
  injection Htick as <-.
  apply bind_nil_inv in H as (vals & Hvals & H); [|apply window_loop_trace].
  split_and!; [done..|]. exists vals. split; [done|].
  destruct interp; simpl.
  - rewrite (py_div_nonzero 1 sf Hsf), bind_ret_l in H.
    destruct (negb (Qeq_bool step' (1 / sf))).
    + apply bind_inr_inv in H as (tr3 & out' & tr4 & Hcall & H & ->).
      apply call_inv in Hcall as [-> Hcall].
      apply mret_inv in H as [-> H]. injection H as <- <-. done.
    + apply mret_inv in H as [-> H]. injection H as <- <-. done.
  - apply mret_inv in H as [-> H]. injection H as <- <-. done.
Qed.

Lemma mask_select_self {A} (g : A -> bool) (l : list A) :
  mask_select l (map g l) = List.filter g l.
Proof. induction l as [|a l IH]; simpl; [done|]. destruct (g a); by rewrite IH. Qed.

(** What a successful call of [stft_power] did. *)
Lemma stft_power_returns (data : list f64) (sf window step : Q) (band : Q * Q)
    (interp norm : bool) (tr : list op) (f t : list Q) (Sxx : matrix) :
  stft_power lib data sf window step band interp norm = Comp tr (inr (f, t, Sxx)) ->
  let step' := if Qeq_bool step 0 then (1 / sf)%Q else step in
  let nperseg := Qtrunc (window * sf) in
  let noverlap := Qtrunc (inject_Z nperseg - step' * sf) in
  (step <= window)%Q /\ (band.1 < band.2)%Q /\
  exists f0 t0 Zxx,
    stft lib data sf nperseg noverlap = inr (f0, t0, Zxx) /\
    f = List.filter (fun v => Qle_bool band.1 v && Qle_bool v band.2) f0 /\
    tr = OpStft nperseg noverlap :: (if interp then [OpInterp2d] else []) /\
    t = if interp then sample_times (length data) sf else t0.
Proof.
  intros H step' nperseg noverlap. unfold stft_power in H.
  apply bind_nil_inv in H as (u1 & H1 & H); [|apply assert_trace].
  apply assert_inv, Qle_bool_iff in H1.
  apply bind_nil_inv in H as (u2 & H2 & H); [|apply assert_trace].
  apply assert_inv, Qltb_spec in H2.
  apply bind_nil_inv in H as (s & Hs & H).
  2: { destruct (Qeq_bool step 0); [apply py_div_trace | done]. }
  assert (s = step') as ->.
  { unfold step'. destruct (Qeq_bool step 0).
    - by apply py_div_inv in Hs as [_ ->].
    - by injection Hs as <-. }
  cbv zeta in H. fold nperseg noverlap in H.
  apply bind_inr_inv in H as (tr1 & [[f0 t0] Zxx] & tr2 & Hcall & H & ->).
  apply call_inv in Hcall as [-> Hcall].
  split_and!; [done..|]. exists f0, t0, Zxx. split; [done|].
  apply bind_inr_inv in H as (tr3 & [t' Sxx'] & tr4 & Hint & H & ->).
  apply mret_inv in H as [-> H]. injection H as <- <- <-.
  rewrite mask_select_self. split; [done|].
  destruct interp.
  - apply bind_inr_inv in Hint as (tr5 & S' & tr6 & Hcall2 & Hint & ->).
    apply call_inv in Hcall2 as [-> _]. apply mret_inv in Hint as [-> Hint].
    by injection Hint as <- <-.
  - apply mret_inv in Hint as [-> Hint]. by injection Hint as <- <-.
Qed.

Lemma downsample_returns (data : list f64) (sf : Q) (tr : list op)
    (data1 : list f64) (sf1 : Q) :
  downsample lib data sf = Comp tr (inr (data1, sf1)) ->
  sf1 = (if Qle_bool 200 sf then 100%Q else sf) /\
  tr = (if Qle_bool 200 sf then [OpResample (100 / sf)] else []).
Proof.
  unfold downsample. destruct (Qle_bool 200 sf); cbv zeta; intros H.
  - apply bind_inr_inv in H as (tr1 & d & tr2 & Hcall & H & ->).
    apply call_inv in Hcall as [-> _]. apply mret_inv in H as [-> H].
    by injection H as <- <-.
  - apply mret_inv in H as [-> H]. by injection H as <- <-.
Qed.

(** X17. The library calls of a successful run of the first stage of
    [spindles_detect], in the order they are made: resampling when the
    sampling rate is at least 200 Hz, the two band-pass filters, the
    STFT on two-second segments and its interpolation, the moving
    correlation, the moving RMS, each followed by its interpolation
    unless the rate makes the step one sample, and the Hilbert
    transform.  Everything after the resampling works at 100 Hz. *)
Theorem compute_measures_operations (data : list f64) (sf : Q)
    (freq_sp freq_broad : Q * Q) (tr : list op) (ms : measures) :
  compute_measures lib data sf freq_sp freq_broad = Comp tr (inr ms) ->
  let sf' := if Qle_bool 200 sf then 100%Q else sf in
  let nperseg := Qtrunc (2 * sf') in
  let interp := if Qeq_bool 0.1 (1 / sf') then [] else [OpInterp1d] in
  ms_sf ms = sf' /\
  tr = (if Qle_bool 200 sf then [OpResample (100 / sf)] else [])
       ++ [OpFilter freq_broad.1 freq_broad.2;
           OpFilter (sigma_band freq_sp).1 (sigma_band freq_sp).2;
           OpStft nperseg (Qtrunc (inject_Z nperseg - 0.05 * sf')); OpInterp2d;
           OpMoving "corr"]
       ++ interp ++ [OpMoving "rms"] ++ interp
       ++ [OpHilbert (next_fast_len lib (length (ms_data_sigma ms)))].
Proof.
  intros H sf' nperseg interp. unfold compute_measures in H.
  apply bind_nil_inv in H as (u1 & _ & H); [|apply assert_trace].
  apply bind_nil_inv in H as (u2 & _ & H); [|apply assert_trace].
  apply bind_inr_inv in H as (tr0 & [data1 sf1] & tr1 & Hdown & H & ->).
  apply downsample_returns in Hdown as [-> ->]. fold sf' in H.
  apply bind_inr_inv in H as (tr2 & data2 & tr3 & Hc1 & H & ->).
  apply call_inv in Hc1 as [-> _]. cbv zeta in H.
  apply bind_inr_inv in H as (tr4 & data_sigma & tr5 & Hc2 & H & ->).
  apply call_inv in Hc2 as [-> _].
  apply bind_inr_inv in H as (tr6 & [[f t] Sxx] & tr7 & Hstft & H & ->).
  apply stft_power_returns in Hstft as (_ & _ & f0 & t0 & Zxx & _ & _ & -> & _).
  apply bind_inr_inv in H as (tr8 & [t1 mcorr] & tr9 & Hcorr & H & ->).
  apply moving_transform_returns in Hcorr as (_ & _ & _ & v1 & _ & Hcorr).
  apply bind_inr_inv in H as (tr10 & [t2 mrms] & tr11 & Hrms & H & ->).
  apply moving_transform_returns in Hrms as (_ & _ & _ & v2 & _ & Hrms).
  apply bind_inr_inv in H as (tr12 & analytic & tr13 & Hc3 & H & ->).
  apply call_inv in Hc3 as [-> _]. apply mret_inv in H as [-> <-].
  split; [done|]. cbn [ms_data_sigma].
  change (Qeq_bool 0.1 0) with false in Hcorr, Hrms.
  change (Qeq_bool 0.05 0) with false. cbv iota.
  unfold interp. fold nperseg.
  destruct (Qeq_bool 0.1 (1 / sf')); simpl in Hcorr, Hrms;
    destruct Hcorr as (-> & _), Hrms as (-> & _); by rewrite app_nil_r.
Qed.

End SuccessfulRuns.

Lemma compute_measures_operations_example :
  compute_measures stub_lib ramp3 100 default_freq_sp default_freq_broad
  = Comp ramp3_trace (inr ramp3_measures) /\
  ramp3_trace
  = [] ++ [OpFilter 0.5 30; OpFilter 12 15; OpStft 200 195; OpInterp2d; OpMoving "corr"]
       ++ [OpInterp1d] ++ [OpMoving "rms"] ++ [OpInterp1d] ++ [OpHilbert 3].
Proof.
  split; [exact ramp_measures|].
  destruct (compute_measures_operations stub_lib _ _ _ _ _ _ ramp_measures) as [_ H].
  exact H.
Defined.

(** ** Windows of the moving transform *)




Lemma arange_head (stop step : Q) :
  (0 < step)%Q -> (0 < stop)%Q ->
  exists rest, arange 0 stop step = (0 + inject_Z 0 * step)%Q :: rest.
Proof.
  intros Hstep Hstop. unfold arange, arange_len.
  assert (Hq : (0 < (stop - 0) / step)%Q).
  { apply Qlt_shift_div_l; lra. }
  pose proof (Qle_ceiling ((stop - 0) / step)) as Hc.
  assert (Hpos : (inject_Z 0 < inject_Z (Qceiling ((stop - 0) / step)))%Q).
  { change (inject_Z 0) with 0%Q. lra. }
  rewrite <- Zlt_Qlt in Hpos.
  destruct (Z.to_nat (Qceiling ((stop - 0) / step))) as [|n] eqn:E; [lia|].
  simpl. eauto.
Qed.

Lemma List_filter_sublist {A} (g : A -> bool) (l : list A) :
  List.filter g l `sublist_of` l.
Proof.
  induction l as [|a l IH]; simpl; [constructor|].
  destruct (g a); by constructor.
Qed.

Section Windows.

Context (lib : numlib).


(** X19. The root mean square looks at the first signal only: a second signal
    of the same length changes nothing. *)
Theorem moving_transform_rms_ignores_y (x y : list f64) (sf window step : Q)
    (interp : bool) :
  length x = length y ->
  moving_transform lib x (Some y) sf window step "rms" interp
  = moving_transform lib x None sf window step "rms" interp.
Proof.
  intros Hlen. unfold moving_transform. rewrite Hlen, Nat.eqb_refl. reflexivity.
Qed.

(** X20. The correlation and the covariance need the second signal: without
    it, on a non-empty signal, the first window raises [TypeError]. *)
Theorem moving_transform_needs_second_signal (x : list f64) (sf window step : Q)
    (method : string) (interp : bool) :
  method = "corr" \/ method = "covar" ->
  x <> [] -> (0 < sf)%Q -> (0 < step)%Q ->
  moving_transform lib x None sf window step method interp
  = Comp [OpMoving method] (inl TypeError).
Proof.
  intros Hm Hx Hsf Hstep.
  rewrite moving_transform_unfold; [|done | lra | | done].
  2: { destruct Hm as [-> | ->]; by repeat constructor. }
  cbv zeta.
  destruct (arange_head (inject_Z (Z.of_nat (length x)) / sf) step Hstep)
    as (rest & ->).
  { apply Qlt_shift_div_l; [done|]. rewrite Qmult_0_l.
    change 0%Q with (inject_Z 0). rewrite <- Zlt_Qlt. destruct x; [done | simpl; lia]. }
  unfold window_loop. cbn [window_beg window_end map zip zip_with for_each].
  assert (E : forall be, window_value lib x None method be = raise TypeError).
  { intros be. unfold window_value. by destruct Hm as [-> | ->]. }
  rewrite E. reflexivity.
Qed.

(** X21. A successful call with [interp=True]: when the step is one sample
    ([step == 1 / sf], or [step == 0], which stands for it) nothing is
    interpolated and there is one value per window; otherwise the values
    are interpolated at the [n] sample times [i / sf]. *)
Theorem moving_transform_interpolation (x : list f64) (y : option (list f64))
    (sf window step : Q) (method : string) (tr : list op) (t : list Q)
    (out : list f64) :
  moving_transform lib x y sf window step method true = Comp tr (inr (t, out)) ->
  let step' := if Qeq_bool step 0 then (1 / sf)%Q else step in
  let centers := arange 0 (inject_Z (Z.of_nat (length x)) / sf) step' in
  if Qeq_bool step' (1 / sf) then
    tr = [OpMoving method] /\ length t = length centers /\ length out = length centers
  else
    tr = [OpMoving method; OpInterp1d] /\
    t = sample_times (length x) sf /\ length t = length x.
Proof.
  intros H step' centers.
  apply moving_transform_returns in H as (_ & _ & _ & vals & Hvals & H).
  fold step' centers in H, Hvals. simpl in H.
  destruct (Qeq_bool step' (1 / sf)); simpl in H.
  - destruct H as (-> & -> & ->).
    apply for_each_length in Hvals.
    unfold window_times, window_beg, window_end in *.
    rewrite length_zip_with, !length_map in *.
    rewrite length_zip, !length_map in Hvals. split_and!; [done | lia | lia].
  - destruct H as (-> & -> & _). split_and!; [done..|].
    unfold sample_times. by rewrite length_map, length_seq.
Qed.

(** X22. The frequencies returned by [stft_power] are those of the transform
    that lie in the band, bounds included, in their order; with
    [interp=True] the time vector is the [n] sample times [i / sf]. *)
Theorem stft_power_output (data : list f64) (sf window step : Q) (band : Q * Q)
    (interp norm : bool) (tr : list op) (f t : list Q) (Sxx : matrix) :
  stft_power lib data sf window step band interp norm = Comp tr (inr (f, t, Sxx)) ->
  let step' := if Qeq_bool step 0 then (1 / sf)%Q else step in
  let nperseg := Qtrunc (window * sf) in
  let noverlap := Qtrunc (inject_Z nperseg - step' * sf) in
  (exists f0 t0 Zxx,
     stft lib data sf nperseg noverlap = inr (f0, t0, Zxx) /\
     f `sublist_of` f0 /\
     forall v, v ∈ f <-> v ∈ f0 /\ (band.1 <= v)%Q /\ (v <= band.2)%Q) /\
  tr = OpStft nperseg noverlap :: (if interp then [OpInterp2d] else []) /\
  (interp = true -> t = sample_times (length data) sf /\ length t = length data).
Proof.
  intros H step' nperseg noverlap.
  apply stft_power_returns in H as (_ & _ & f0 & t0 & Zxx & Hstft & -> & -> & ->).
  split_and!; [|done|].
  - exists f0, t0, Zxx. split_and!; [done | |].
    + apply List_filter_sublist.
    + intros v. rewrite !list_elem_of_In, filter_In, andb_true_iff, !Qle_bool_iff. done.
  - intros ->. split; [done|]. unfold sample_times. by rewrite length_map, length_seq.
Qed.

End Windows.


Lemma moving_transform_rms_ignores_y_example :
  moving_transform failing_lib [Fin 1; Fin 2] (Some [NaN; PInf]) 10 0.3 0.1 "rms" false
  = moving_transform failing_lib [Fin 1; Fin 2] None 10 0.3 0.1 "rms" false.
Proof. by apply moving_transform_rms_ignores_y. Defined.

Lemma moving_transform_needs_second_signal_example :
  moving_transform failing_lib [Fin 1; Fin 2] None 100 0.3 0.1 "corr" false
  = Comp [OpMoving "corr"] (inl TypeError).
Proof.
  apply moving_transform_needs_second_signal; [by left | done | reflexivity | reflexivity].
Defined.

Lemma moving_transform_interpolation_example :
  exists out,
    moving_transform stub_lib ramp3 (Some ramp3) 100 0.3 0.1 "rms" true
    = Comp [OpMoving "rms"; OpInterp1d] (inr (sample_times 3 100, out)) /\
    length (sample_times 3 100) = 3%nat.
Proof.
  destruct ramp_window_rms as [v Hv].
  pose proof (ramp_moving "rms" v ltac:(by repeat constructor) Hv) as E.
  exists [NaN; NaN; NaN]. split; [exact E|].
  pose proof (moving_transform_interpolation stub_lib _ _ _ _ _ _ _ _ _ E) as H.
  cbv zeta in H. change (Qeq_bool 0.1 0) with false in H. cbv iota in H.
  change (Qeq_bool 0.1 (1 / 100)) with false in H. cbv iota in H.
  by destruct H as (_ & _ & H).
Defined.

Lemma stft_power_output_example :
  exists f t Sxx,
    stft_power stub_lib ramp3 100 2 0.05 default_freq_broad true false
    = Comp [OpStft 200 195; OpInterp2d] (inr (f, t, Sxx)) /\
    t = sample_times 3 100.
Proof.
  assert (E : exists f t Sxx,
            stft_power stub_lib ramp3 100 2 0.05 default_freq_broad true false
            = Comp [OpStft 200 195; OpInterp2d] (inr (f, t, Sxx))).
  { eexists _, _, _. reflexivity. }
  destruct E as (f & t & Sxx & E). exists f, t, Sxx. split; [exact E|].
  pose proof (stft_power_output stub_lib _ _ _ _ _ _ _ _ _ _ _ E) as (_ & _ & H).
  by destruct (H eq_refl) as [-> _].
Defined.

(** ** The kernels on finite windows *)

Lemma Rsum_nil : Rsum [] = 0%R.
Proof. done. Qed.

Lemma zip_with_Rmult_comm (a b : list R) : zip_with Rmult a b = zip_with Rmult b a.
Proof.
  revert b. induction a as [|x a IH]; intros [|y b]; simpl; try done.
  by rewrite IH, Rmult_comm.
Qed.

Lemma zip_with_Rmult_diag (a : list R) :
  zip_with Rmult a a = map (fun v => (v * v)%R) a.
Proof. induction a as [|x a IH]; simpl; [done|]. by rewrite IH. Qed.

Lemma Rsum_squares_eq_zero (l : list R) :
  Rsum (map (fun v => (v * v)%R) l) = 0%R -> Forall (fun v => v = 0%R) l.
Proof.
  induction l as [|r l IH]; intros H; [constructor|].
  simpl in H. rewrite Rsum_cons in H.
  pose proof (Rsum_squares_nonneg l) as Hl.
  constructor; [nra | apply IH; nra].
Qed.

(** The Cauchy-Schwarz inequality on two lists. *)
Lemma Rsum_cauchy_schwarz (a b : list R) :
  (Rsum (zip_with Rmult a b) * Rsum (zip_with Rmult a b)
   <= Rsum (map (fun v => v * v) a) * Rsum (map (fun v => v * v) b))%R.
Proof.
  revert b. induction a as [|x a IH]; intros [|y b]; simpl;
    rewrite ?Rsum_nil, ?Rsum_cons; try lra.
  specialize (IH b).
  pose proof (Rsum_squares_nonneg a) as HA.
  pose proof (Rsum_squares_nonneg b) as HB.
  set (A := Rsum (map (fun v => (v * v)%R) a)) in *.
  set (B := Rsum (map (fun v => (v * v)%R) b)) in *.
  set (C := Rsum (zip_with Rmult a b)) in *.
  assert (Hs : (sqrt A * sqrt A = A)%R) by (by apply sqrt_sqrt).
  assert (Ht : (sqrt B * sqrt B = B)%R) by (by apply sqrt_sqrt).
  pose proof (sqrt_pos A) as Hs0. pose proof (sqrt_pos B) as Ht0.
  set (s := sqrt A) in *. set (t := sqrt B) in *.
  assert (HC : (- (s * t) <= C <= s * t)%R).
  { assert (C * C <= (s * t) * (s * t))%R by nra.
    assert (0 <= s * t)%R by nra. split; nra. }
  assert (H2 : (2 * (x * y) * C <= x * x * B + A * (y * y))%R).
  { rewrite <- Hs, <- Ht.
    destruct (Rle_dec 0 (x * y)) as [Hxy | Hxy].
    - assert (2 * (x * y) * C <= 2 * (x * y) * (s * t))%R
        by (apply Rmult_le_compat_l; lra).
      pose proof (Rle_0_sqr (x * t - y * s)) as Hsq. unfold Rsqr in Hsq. nra.
    - assert (2 * (x * y) * C <= 2 * (x * y) * (- (s * t)))%R
        by (apply Rmult_le_compat_neg_l; lra).
      pose proof (Rle_0_sqr (x * t + y * s)) as Hsq. unfold Rsqr in Hsq. nra. }
  nra.
Qed.

Lemma constant_centered_zero (l : list R) :
  Forall (fun v => v = 0%R) (centered l) -> constant_window l.
Proof.
  intros H. exists (Rmean l). unfold centered in H.
  apply List.Forall_map in H. eapply Forall_impl; [exact H|]. simpl. intros v Hv. lra.
Qed.

Section KernelRange.

Context (lib : numlib).

Lemma corr_den_square (xs ys : list R) :
  (corr_den xs ys * corr_den xs ys
   = Rsum (map (fun v => v * v) (centered xs)) * Rsum (map (fun v => v * v) (centered ys)))%R.
Proof.
  unfold corr_den.
  pose proof (sqrt_sqrt _ (Rsum_squares_nonneg (centered xs))) as H1.
  pose proof (sqrt_sqrt _ (Rsum_squares_nonneg (centered ys))) as H2.
  nra.
Qed.

Lemma corr_den_nonneg (xs ys : list R) : (0 <= corr_den xs ys)%R.
Proof.
  unfold corr_den. apply Rmult_le_pos; apply sqrt_pos.
Qed.

(** X23. A correlation that is returned, on non-empty windows of finite
    samples, is a real number between -1 and 1, or NaN when a window has
    no variance; it is never infinite. *)
Theorem corr_range (xs ys : list R) (v : f64) :
  xs <> [] -> ys <> [] ->
  _corr lib (map Fin xs) (map Fin ys) = mret v ->
  (v = NaN /\ corr_den xs ys = 0%R) \/
  (exists r, v = Fin r /\ (-1 <= r <= 1)%R /\ corr_den xs ys <> 0%R).
Proof.
  intros Hx Hy H. rewrite corr_Fin in H by done.
  pose proof (Rsum_cauchy_schwarz (centered xs) (centered ys)) as HCS.
  fold (corr_num xs ys) in HCS. rewrite <- corr_den_square in HCS.
  pose proof (corr_den_nonneg xs ys) as Hden.
  destruct (Req_dec (corr_den xs ys) 0) as [Hz | Hnz].
  - left. split; [|done].
    assert (Hnum : corr_num xs ys = 0%R) by nra.
    rewrite (jit_div_zero lib _ _ Hnum Hz) in H.
    destruct (jit_error_model lib); [discriminate | by injection H as <-].
  - right. rewrite (jit_div_Fin lib _ _ Hnz) in H. injection H as <-.
    eexists. split; [done|]. split; [|done].
    assert (Hpos : (0 < corr_den xs ys)%R) by lra.
    assert (Hnum : (- corr_den xs ys <= corr_num xs ys <= corr_den xs ys)%R) by (split; nra).
    split.
    + apply (Rmult_le_reg_r (corr_den xs ys)); [done|].
      unfold Rdiv. rewrite Rmult_assoc, Rinv_l by done. lra.
    + apply (Rmult_le_reg_r (corr_den xs ys)); [done|].
      unfold Rdiv. rewrite Rmult_assoc, Rinv_l by done. lra.
Qed.

(** X24. The correlation does not depend on the order of its two windows, and
    the correlation of a window that is not constant with itself is 1. *)
Theorem corr_symmetric_self (xs ys : list R) :
  xs <> [] -> ys <> [] ->
  _corr lib (map Fin xs) (map Fin ys) = _corr lib (map Fin ys) (map Fin xs) /\
  (~ constant_window xs -> _corr lib (map Fin xs) (map Fin xs) = mret (Fin 1)).
Proof.
  intros Hx Hy. split.
  - rewrite !corr_Fin by done. unfold corr_num, corr_den.
    by rewrite zip_with_Rmult_comm, Rmult_comm.
  - intros Hnc. rewrite corr_Fin by done.
    assert (Hs : Rsum (map (fun v => (v * v)%R) (centered xs)) <> 0%R).
    { intros H. by apply Hnc, constant_centered_zero, Rsum_squares_eq_zero. }
    assert (Hnum : corr_num xs xs = Rsum (map (fun v => (v * v)%R) (centered xs))).
    { unfold corr_num. by rewrite zip_with_Rmult_diag. }
    assert (Hden : corr_den xs xs = Rsum (map (fun v => (v * v)%R) (centered xs))).
    { unfold corr_den. apply sqrt_sqrt, Rsum_squares_nonneg. }
    rewrite jit_div_Fin by (by rewrite Hden). rewrite Hnum, Hden. do 2 f_equal. by field.
Qed.




End KernelRange.

Lemma corr_range_example :
  exists v, _corr stub_lib [Fin 0; Fin 1] [Fin 0; Fin 1] = mret v /\
    ((v = NaN /\ corr_den [0; 1]%R [0; 1]%R = 0%R) \/
     exists r, v = Fin r /\ (-1 <= r <= 1)%R /\ corr_den [0; 1]%R [0; 1]%R <> 0%R).
Proof.
  assert (E : _corr stub_lib (map Fin [0; 1]%R) (map Fin [0; 1]%R)
              = mret (Fin (corr_num [0; 1]%R [0; 1]%R / corr_den [0; 1]%R [0; 1]%R))).
  { rewrite corr_Fin by done. by rewrite (jit_div_Fin _ _ _ ramp_corr_den). }
  eexists. split; [exact E|].
  exact (corr_range stub_lib [0; 1]%R [0; 1]%R _ ltac:(done) ltac:(done) E).
Defined.

Lemma corr_symmetric_self_example :
  _corr stub_lib [Fin 0; Fin 1] [Fin 2; Fin 5] = _corr stub_lib [Fin 2; Fin 5] [Fin 0; Fin 1].
Proof.
  by destruct (corr_symmetric_self stub_lib [0; 1]%R [2; 5]%R ltac:(done) ltac:(done))
    as [H _].
Defined.

(** ** The votes *)

Lemma mask_to_int_range (m : list bool) : Forall (fun v => 0 <= v <= 1) (mask_to_int m).
Proof.
  unfold mask_to_int. apply List.Forall_map. apply Forall_forall.
  intros [] _; simpl; lia.
Qed.

Lemma np_add_range (a b s : list Z) (tr : list op) (la ua lb ub : Z) :
  np_add a b = Comp tr (inr s) ->
  Forall (fun v => la <= v <= ua) a -> Forall (fun v => lb <= v <= ub) b ->
  tr = [] /\ Forall (fun v => la + lb <= v <= ua + ub) s /\
  (length a = length b -> length s = length a).
Proof.
  unfold np_add. intros H Ha Hb.
  destruct (length a =? length b)%nat eqn:E.
  - apply mret_inv in H as [-> <-]. split_and!; [done | |].
    + apply Forall_forall. intros v (i & Hi)%list_elem_of_lookup.
      apply lookup_zip_with_Some in Hi as (x & y & -> & Hx & Hy).
      rewrite Forall_forall in Ha, Hb.
      specialize (Ha x (list_elem_of_lookup_2 _ _ _ Hx)).
      specialize (Hb y (list_elem_of_lookup_2 _ _ _ Hy)). lia.
    + intros Hlen. rewrite length_zip_with. lia.
  - assert (Hne : length a <> length b) by (by apply Nat.eqb_neq).
    destruct a as [|x [|x' a]].
    + destruct b as [|y [|y' b]]; [done | | discriminate].
      apply mret_inv in H as [-> <-]. split_and!; [done | constructor | done].
    + apply mret_inv in H as [-> <-]. split_and!; [done | | done].
      apply Forall_cons in Ha as [Hx _]. apply List.Forall_map.
      eapply Forall_impl; [exact Hb|]. simpl. lia.
    + destruct b as [|y [|y' b]]; [discriminate | | discriminate].
      apply mret_inv in H as [-> <-]. split_and!; [done | | done].
      apply Forall_cons in Hb as [Hy _]. apply List.Forall_map.
      eapply Forall_impl; [exact Ha|]. simpl. lia.
Qed.

Lemma dict_get_trace (thresh : gmap string R) (k : string) : trace (dict_get thresh k) = [].
Proof. unfold dict_get. by destruct (thresh !! k). Qed.

Lemma dict_get_inv (thresh : gmap string R) (k : string) (v : R) :
  dict_get thresh k = mret v -> thresh !! k = Some v.
Proof. unfold dict_get. destruct (thresh !! k); [by intros [= ->] | done]. Qed.

(** X26. When the votes are computed, all four thresholds were present, one
    percentile was taken, and every vote is between 0 and 4; on
    criteria of one length there is one vote per sample. *)
Theorem vote_range (lib : numlib) (ms : measures) (thresh : gmap string R)
    (tr : list op) (idx_sum : list Z) :
  vote lib ms thresh = Comp tr (inr idx_sum) ->
  tr = [OpPercentile] /\
  (forall k, k ∈ required_keys -> is_Some (thresh !! k)) /\
  Forall (fun v => 0 <= v <= 4) idx_sum /\
  (length (ms_abs_pow_log ms) = length (ms_rel_pow ms) ->
   length (ms_rel_pow ms) = length (ms_mcorr ms) ->
   length (ms_mcorr ms) = length (ms_mrms ms) ->
   length idx_sum = length (ms_mrms ms)).
Proof.
  intros H. unfold vote in H.
  apply bind_nil_inv in H as (t_abs & Habs%dict_get_inv & H); [|apply dict_get_trace].
  cbv zeta in H.
  apply bind_nil_inv in H as (t_rel & Hrel%dict_get_inv & H); [|apply dict_get_trace].
  apply bind_nil_inv in H as (t_corr & Hcorr%dict_get_inv & H); [|apply dict_get_trace].
  apply bind_nil_inv in H as (t_rms & Hrms%dict_get_inv & H); [|apply dict_get_trace].
  apply bind_inr_inv in H as (tr1 & p & tr2 & Hcall & H & ->).
  apply call_inv in Hcall as [-> _].
  apply bind_inr_inv in H as (tr3 & s1 & tr4 & H1 & H & ->).
  apply bind_inr_inv in H as (tr5 & s2 & tr6 & H2 & H3 & ->).
  destruct (np_add_range _ _ _ _ 0 1 0 1 H1 (mask_to_int_range _) (mask_to_int_range _))
    as (-> & Hs1 & L1).
  destruct (np_add_range _ _ _ _ _ _ 0 1 H2 Hs1 (mask_to_int_range _)) as (-> & Hs2 & L2).
  destruct (np_add_range _ _ _ _ _ _ 0 1 H3 Hs2 (mask_to_int_range _)) as (-> & Hs3 & L3).
  split_and!; [done | | |].
  - intros k Hk. unfold required_keys in Hk.
    repeat (apply elem_of_cons in Hk as [-> | Hk]); [eauto.. | by apply elem_of_nil in Hk].
  - eapply Forall_impl; [exact Hs3|]. simpl. lia.
  - unfold mask_to_int in L1, L2, L3.
    repeat rewrite length_map in L1. repeat rewrite length_map in L2.
    repeat rewrite length_map in L3.
    intros E1 E2 E3. specialize (L1 E1).
    specialize (L2 ltac:(lia)). specialize (L3 ltac:(lia)). lia.
Qed.

Lemma vote_range_example :
  vote stub_lib ramp3_measures default_thresh = Comp [OpPercentile] (inr [0; 0; 0]) /\
  Forall (fun v => 0 <= v <= 4) [0; 0; 0].
Proof.
  split; [exact ramp_vote|].
  by destruct (vote_range stub_lib _ _ _ _ ramp_vote) as (_ & _ & H & _).
Defined.

(** ** The sigma band *)

(** X27. For an ordered spindle band the band of the second filter is ordered
    too and lies inside the spindle band. *)
Theorem sigma_band_inside (freq_sp : Q * Q) :
  (freq_sp.1 < freq_sp.2)%Q ->
  ((sigma_band freq_sp).1 < (sigma_band freq_sp).2)%Q /\
  (freq_sp.1 <= (sigma_band freq_sp).1)%Q /\
  ((sigma_band freq_sp).2 <= freq_sp.2)%Q.
Proof.
  intros H. destruct (Qlt_le_dec 3 (freq_sp.2 - freq_sp.1)) as [Hw | Hn].
  - rewrite (sigma_band_wide _ Hw). simpl. split_and!; lra.
  - rewrite (sigma_band_narrow _ Hn). simpl. split_and!; lra.
Qed.

Lemma sigma_band_inside_example :
  ((sigma_band default_freq_sp).1 < (sigma_band default_freq_sp).2)%Q.
Proof. by destruct (sigma_band_inside default_freq_sp eq_refl) as [H _]. Defined.

(** ** Windows shorter than two samples *)


Section ShortWindows.

Context (lib : numlib).


(** ** Indices read by the feature loop *)

Lemma getitem_inv {A} (l : list A) (i : Z) (tr : list op) (a : A) :
  getitem l i = Comp tr (inr a) -> - Z.of_nat (length l) <= i < Z.of_nat (length l).
Proof.
  unfold getitem. intros H.
  destruct (decide (- Z.of_nat (length l) <= i < Z.of_nat (length l))) as [|Hout]; [done|].
  rewrite py_index_out in H by lia. discriminate.
Qed.

Lemma for_each_inv {A B} (f : A -> comp B) (l : list A) (tr : list op) (bs : list B) :
  for_each f l = Comp tr (inr bs) ->
  Forall (fun a => exists tr' b, f a = Comp tr' (inr b)) l.
Proof.
  revert tr bs. induction l as [|a l IH]; intros tr bs H; [constructor|].
  simpl in H. inv_bind H as b. inv_bind H as bs'.
  constructor; [eauto | by eapply IH].
Qed.

Lemma fancy_get_inv {A} (l : list A) (idx : list Z) (tr : list op) (v : list A) :
  fancy_get l idx = Comp tr (inr v) ->
  Forall (fun i => - Z.of_nat (length l) <= i < Z.of_nat (length l)) idx.
Proof.
  intros H. apply for_each_inv in H. eapply Forall_impl; [exact H|].
  simpl. intros i (tr' & a & Hi). by eapply getitem_inv.
Qed.

Lemma run_features_indices (ms : measures) (idx_sum : list Z) (distance : Q)
    (run : list Z) (tr : list op) (ft : features) :
  run_features lib ms idx_sum distance run = Comp tr (inr ft) ->
  Forall (fun p => p < Z.of_nat (length (ms_data ms)) /\
                   p < Z.of_nat (length (ms_abs_pow_log ms)) /\
                   p < Z.of_nat (length (ms_rel_pow ms)) /\
                   p < Z.of_nat (length (ms_inst_freq ms)) /\
                   p < Z.of_nat (length idx_sum)) run.
Proof.
  unfold run_features. intros H.
  apply bind_inr_inv in H as (? & seg & ? & H1%fancy_get_inv & H & ->).
  inv_bind H as sp_det. inv_bind H as amp. inv_bind H as rms.
  apply bind_inr_inv in H as (? & a & ? & H2%fancy_get_inv & H & ->).
  cbv zeta in H.
  apply bind_inr_inv in H as (? & r & ? & H3%fancy_get_inv & H & ->).
  apply bind_inr_inv in H as (? & fr & ? & H4%fancy_get_inv & H & ->).
  inv_bind H as freq.
  apply bind_inr_inv in H as (? & v & ? & H5%fancy_get_inv & H & ->).
  rewrite Forall_forall in H1, H2, H3, H4, H5.
  apply Forall_forall. intros p Hp.
  specialize (H1 p Hp). specialize (H2 p Hp). specialize (H3 p Hp).
  specialize (H4 p Hp). specialize (H5 p Hp). lia.
Qed.

(** X29. Every sample index of an event of a returned table lies inside each
    array the feature loop reads, the instantaneous frequency included.
    That array has fewer entries than the signal has samples, so no
    table is returned when a run of good duration reaches the last
    sample. *)
Theorem detect_events_indices (ms : measures) (idx_sum : list Z) (duration : Q * Q)
    (min_distance : option Q) (tr : list op) (df : DataFrame) (k : list Z) (p : Z) :
  detect_events lib ms idx_sum duration min_distance = Comp tr (inr (Some df)) ->
  k ∈ merged_runs min_distance (ms_sf ms) idx_sum ->
  good_run duration (ms_sf ms) k = true ->
  p ∈ k ->
  0 <= p < Z.of_nat (length (ms_inst_freq ms)) /\
  p < Z.of_nat (length (ms_data ms)) /\
  p < Z.of_nat (length idx_sum).
Proof.
  intros H Hk Hgood Hp. rewrite detect_events_unfold in H. cbv zeta in H.
  destruct (length (candidates idx_sum) =? 0)%nat; [discriminate|].
  destruct (forallb negb _); [discriminate|].
  inv_bind H as fts. apply for_each_inv in Hstep. rewrite Forall_forall in Hstep.
  destruct (Hstep (k, true)) as (tr' & ft & Hft).
  { apply list_elem_of_lookup in Hk as (i & Hi). apply list_elem_of_lookup. exists i.
    apply lookup_zip_with_Some. exists k, true. split_and!; [done..|].
    change (map ?f ?l) with (f <$> l). by rewrite list_lookup_fmap, Hi, <- Hgood. }
  simpl in Hft. apply run_features_indices in Hft. rewrite Forall_forall in Hft.
  destruct (Hft p Hp) as (H1 & _ & _ & H4 & H5).
  pose proof (merge_events_bounds min_distance (ms_sf ms) _ _ _ (candidates_bounds idx_sum))
    as Hb.
  rewrite Forall_forall in Hb. specialize (Hb p (elem_of_split_runs _ _ _ Hk Hp)). lia.
Qed.

Lemma f64_diff_length (l : list f64) : length (f64_diff l) = (length l - 1)%nat.
Proof.
  unfold f64_diff. rewrite length_zip_with. destruct l; simpl; [done|]. lia.
Qed.

(** X30. The measures of a successful first stage: the absolute power has one
    value per value of the moving RMS, and the instantaneous frequency
    has at least one value less than the sigma signal has samples. *)
Theorem compute_measures_lengths (data : list f64) (sf : Q)
    (freq_sp freq_broad : Q * Q) (tr : list op) (ms : measures) :
  compute_measures lib data sf freq_sp freq_broad = Comp tr (inr ms) ->
  length (ms_abs_pow_log ms) = length (ms_mrms ms) /\
  (length (ms_inst_freq ms) <= length (ms_data_sigma ms) - 1)%nat.
Proof.
  intros H. split.
  - rewrite (compute_measures_abs_pow lib _ _ _ _ _ _ H). by rewrite length_map.
  - unfold compute_measures in H.
    inv_bind H as ?. inv_bind H as ?. inv_bind H as [data1 sf1].
    inv_bind H as data2. inv_bind H as data_sigma. inv_bind H as [[f t] Sxx].
    inv_bind H as [t1 mcorr]. inv_bind H as [t2 mrms]. inv_bind H as analytic.
    apply mret_inv in H as [_ <-]. cbn [ms_inst_freq ms_data_sigma].
    rewrite length_map, f64_diff_length, length_map, length_take. lia.
Qed.

End ShortWindows.


Lemma detect_events_indices_example :
  exists tr df,
    detect_events stub_lib demo_measures demo_votes default_duration
      default_min_distance = Comp tr (inr (Some df)) /\
    0 <= 59 < Z.of_nat (length (ms_inst_freq demo_measures)).
Proof.
  destruct demo_run_features as (tr & ft & Hft).
  assert (E : exists tr df,
            detect_events stub_lib demo_measures demo_votes default_duration
              default_min_distance = Comp tr (inr (Some df))).
  { eexists _, _. rewrite detect_events_unfold. cbv zeta.
    rewrite demo_merged_runs.
    change (length (candidates demo_votes) =? 0)%nat with false.
    change (map (good_run default_duration (ms_sf demo_measures)) [demo_run])
      with [true].
    cbn [forallb negb andb zip zip_with for_each fst snd].
    rewrite Hft. reflexivity. }
  destruct E as (tr' & df & E). exists tr', df. split; [exact E|].
  destruct (detect_events_indices stub_lib _ _ _ _ _ _ demo_run 59 E) as (H & _).
  - rewrite demo_merged_runs. by left.
  - reflexivity.
  - unfold demo_run. apply list_elem_of_fmap. exists 59%nat. split; [done|].
    apply list_elem_of_In, in_seq. lia.
  - exact H.
Defined.

Lemma compute_measures_lengths_example :
  (length (ms_inst_freq ramp3_measures) <= length (ms_data_sigma ramp3_measures) - 1)%nat.
Proof.
  by destruct (compute_measures_lengths stub_lib _ _ _ _ _ _ ramp_measures) as [_ H].
Defined.
